(** * opendatacam: the orchestration layer of [server.js]

    A shallow embedding of the stateful parts of [server.js]: the stdout
    interception callback (resolution scraping and the rolling console
    buffer), the initial preset of the resolution, and the process-level
    shutdown and fault handlers.  The collaborators whose code lives in
    other files of the repository ([server/processes/YOLO.js],
    [server/Opendatacam.js]) are modelled from the specification in
    clearly marked modules. *)

From Stdlib Require Import List NArith ZArith Bool Lia Ascii.
From Stdlib Require String.
Import ListNotations String.StringSyntax.
Open Scope string_scope.

(* ================================================================== *)
(** * Part I: definitions *)
(* ================================================================== *)

(** ** JavaScript strings and numbers

    A JavaScript string is a sequence of UTF-16 code units; [length],
    [indexOf], [split], [substring] and [trim] all count and compare code
    units, so a string is a list of them. *)

Module JS.

Definition char16 := N.
Definition jsstring := list char16.

(** A source literal, written as a Rocq string of ASCII characters. *)
Definition str (s : String.string) : jsstring :=
  map N_of_ascii (String.list_ascii_of_string s).

(** The line feed of the literal ["\n"]. *)
Definition LF : char16 := 10%N.

(** [s.startsWith(p)], the test [indexOf] and [split] make at each position. *)
Fixpoint prefixb (p s : jsstring) : bool :=
  match p, s with
  | [], _ => true
  | _ :: _, [] => false
  | a :: p', b :: s' => (a =? b)%N && prefixb p' s'
  end.

(** [s.indexOf(sub)]: the index of the first occurrence, or [-1]. *)
Fixpoint indexOf (s sub : jsstring) : Z :=
  if prefixb sub s then 0%Z
  else match s with
       | [] => (-1)%Z
       | _ :: s' =>
           let i := indexOf s' sub in
           if (i <? 0)%Z then (-1)%Z else (i + 1)%Z
       end.

(** The first occurrence of [sep] in [s]: the text before it and the text
    after it. *)
Fixpoint breakOn (sep s : jsstring) : option (jsstring * jsstring) :=
  if prefixb sep s then Some ([], skipn (length sep) s)
  else match s with
       | [] => None
       | c :: s' =>
           match breakOn sep s' with
           | Some (b, a) => Some (c :: b, a)
           | None => None
           end
       end.

(** [s.split(sep)] for a non-empty separator cuts at the occurrences of
    [sep] found from left to right, each search resuming after the
    previous occurrence.  The recursion is on the text after the
    occurrence, which is shorter; [fuel] bounds it. *)
Fixpoint split_fuel (fuel : nat) (sep s : jsstring) : list jsstring :=
  match fuel with
  | O => [s]
  | S n =>
      match breakOn sep s with
      | None => [s]
      | Some (b, a) => b :: split_fuel n sep a
      end
  end.

Definition split (s sep : jsstring) : list jsstring :=
  match sep with
  | [] => map (fun c => [c]) s
  | _ :: _ => split_fuel (S (length s)) sep s
  end.

(** [sep.join], the inverse used to state that [split] loses nothing. *)
Fixpoint join (sep : jsstring) (l : list jsstring) : jsstring :=
  match l with
  | [] => []
  | [p] => p
  | p :: l' => p ++ sep ++ join sep l'
  end.

(** [s.substring(start, end)]: both indices are clamped to [0, length]
    and swapped when out of order. *)
Definition substring (s : jsstring) (start finish : Z) : jsstring :=
  let len := Z.of_nat (length s) in
  let clamp i := Z.min (Z.max i 0) len in
  let a := clamp start in
  let b := clamp finish in
  let from := Z.min a b in
  let to := Z.max a b in
  firstn (Z.to_nat (to - from)) (skipn (Z.to_nat from) s).

(** White space and line terminators, the code units [trim] and
    [parseInt] skip. *)
Definition is_whitespace (c : char16) : bool :=
  ((9 <=? c) && (c <=? 13) || (c =? 32) || (c =? 160) || (c =? 5760)
   || (8192 <=? c) && (c <=? 8202) || (c =? 8232) || (c =? 8233)
   || (c =? 8239) || (c =? 8287) || (c =? 12288) || (c =? 65279))%N.

Fixpoint dropWhile (p : char16 -> bool) (s : jsstring) : jsstring :=
  match s with
  | [] => []
  | c :: s' => if p c then dropWhile p s' else s
  end.

(** [s.trim()] *)
Definition trim (s : jsstring) : jsstring :=
  rev (dropWhile is_whitespace (rev (dropWhile is_whitespace s))).

(** A Number holding an integer: [NaN], an infinity, or a finite integer
    with its sign kept apart (so that [-0] exists).  Fractions never come
    out of [parseInt]. *)
Inductive number : Type :=
| NaN
| Infinity (neg : bool)
| Finite (neg : bool) (mag : N).

(** The Number nearest to the integer [m] (binary64, ties to even):
    integers below [2^53] are exact, larger ones keep 53 significant bits,
    and [2^1024] and above overflow. *)
Definition to_number (neg : bool) (m : N) : number :=
  if (m <? 2 ^ 53)%N then Finite neg m
  else
    let e := (N.log2 m - 52)%N in
    let q := N.shiftr m e in
    let r := (m mod 2 ^ e)%N in
    let half := (2 ^ (e - 1))%N in
    let q' := if (r <? half)%N then q
              else if (half <? r)%N then (q + 1)%N
              else if N.even q then q else (q + 1)%N in
    let v := (q' * 2 ^ e)%N in
    if (2 ^ 1024 <=? v)%N then Infinity neg else Finite neg v.

(** The value of a code unit as a digit, letters standing for 10 to 35. *)
Definition digit_value (c : char16) : option N :=
  if ((48 <=? c) && (c <=? 57))%N then Some (c - 48)%N
  else if ((97 <=? c) && (c <=? 122))%N then Some (c - 87)%N
  else if ((65 <=? c) && (c <=? 90))%N then Some (c - 55)%N
  else None.

Definition digit_in_radix (R : N) (c : char16) : option N :=
  match digit_value c with
  | Some d => if (d <? R)%N then Some d else None
  | None => None
  end.

(** The longest prefix of radix-[R] digits. *)
Fixpoint takeDigits (R : N) (s : jsstring) : list N :=
  match s with
  | [] => []
  | c :: s' =>
      match digit_in_radix R c with
      | Some d => d :: takeDigits R s'
      | None => []
      end
  end.

Definition mathInt (R : N) (ds : list N) : N :=
  fold_left (fun acc d => (acc * R + d)%N) ds 0%N.

(** [parseInt(s)] with no radix argument: leading white space, an optional
    sign, an optional [0x] or [0X] prefix selecting radix 16, then the
    longest run of digits; [NaN] when that run is empty. *)
Definition parseInt (s : jsstring) : number :=
  let s1 := dropWhile is_whitespace s in
  let '(neg, s2) :=
    match s1 with
    | c :: t => if (c =? 45)%N then (true, t)
                else if (c =? 43)%N then (false, t)
                else (false, s1)
    | [] => (false, [])
    end in
  let '(R, s3) :=
    match s2 with
    | c0 :: c1 :: t =>
        if ((c0 =? 48) && ((c1 =? 120) || (c1 =? 88)))%N then (16%N, t)
        else (10%N, s2)
    | _ => (10%N, s2)
    end in
  match takeDigits R s3 with
  | [] => NaN
  | ds => to_number neg (mathInt R ds)
  end.

End JS.

Import JS.

(** ** The stdout interceptor ([server.js], lines 38 to 69) *)

Module Stdout.

(** The object literal [{w: ..., h: ...}].  The object is handed to
    [Opendatacam] by reference, but [server.js] builds a new literal at
    each assignment and never writes to one it has handed over, so the
    value is all that matters here. *)
Record resolution : Type := { w : number; h : number }.

(** The module-level variables, and the calls made to
    [Opendatacam.setVideoResolution], oldest first. *)
Record state : Type := {
  videoResolution : option resolution;   (* [None] is [null] *)
  stdoutBuffer : jsstring;
  setVideoResolution_calls : list resolution
}.

Inductive exn : Type :=
| TypeError.   (* a property read on [undefined] *)

Inductive completion (A : Type) : Type :=
| Normal (a : A)
| Throw (e : exn).
Arguments Normal {A} a.
Arguments Throw {A} e.

(** Statements run in a state and either complete or throw. *)
Definition M (A : Type) : Type := state -> completion A * state.

Definition ret {A} (a : A) : M A := fun st => (Normal a, st).

Definition bind {A B} (m : M A) (k : A -> M B) : M B :=
  fun st =>
    match m st with
    | (Normal a, st') => k a st'
    | (Throw e, st') => (Throw e, st')
    end.

Definition throw {A} (e : exn) : M A := fun st => (Throw e, st).

Declare Scope js_scope.
Delimit Scope js_scope with js.
Notation "x <- m ;; k" := (bind m (fun x => k))
  (at level 61, m at next level, right associativity) : js_scope.
Notation "m ;; k" := (bind m (fun _ => k))
  (at level 61, right associativity) : js_scope.
Open Scope js_scope.

(** [a[i]] followed by a method call: an index past the end reads
    [undefined], and the call on it throws. *)
Definition elem (a : list jsstring) (i : nat) : M jsstring :=
  match nth_error a i with
  | Some s => ret s
  | None => throw TypeError
  end.

Definition assign_videoResolution (r : resolution) : M unit :=
  fun st => (Normal tt,
             {| videoResolution := Some r;
                stdoutBuffer := stdoutBuffer st;
                setVideoResolution_calls := setVideoResolution_calls st |}).

Definition read_videoResolution : M (option resolution) :=
  fun st => (Normal (videoResolution st), st).

(** [Opendatacam.setVideoResolution(r)]: the collaborator receives the
    value; the call is recorded. *)
Definition Opendatacam_setVideoResolution (r : option resolution) : M unit :=
  fun st => (Normal tt,
             {| videoResolution := videoResolution st;
                stdoutBuffer := stdoutBuffer st;
                setVideoResolution_calls :=
                  setVideoResolution_calls st
                  ++ match r with Some v => [v] | None => [] end |}).

Definition read_stdoutBuffer : M jsstring :=
  fun st => (Normal (stdoutBuffer st), st).

Definition assign_stdoutBuffer (b : jsstring) : M unit :=
  fun st => (Normal tt,
             {| videoResolution := videoResolution st;
                stdoutBuffer := b;
                setVideoResolution_calls := setVideoResolution_calls st |}).

Definition marker : jsstring := str "Video stream:".

(** [ratio], the text the two numbers are read from: element 1 of the
    split on ["stream:"], cut at its first line feed. *)
Definition ratio_of (stdoutText : jsstring) : M jsstring :=
  let splitOnStream := split stdoutText (str "stream:") in
  s1 <- elem splitOnStream 1 ;;
  elem (split s1 [LF]) 0.

(** The callback handed to [intercept]. *)
Definition intercept_callback (text : jsstring) : M unit :=
  let stdoutText := text in
  (if (indexOf stdoutText marker >? -1)%Z then
     ratio <- ratio_of stdoutText ;;
     p0 <- elem (split ratio (str "x")) 0 ;;
     let w := parseInt (trim p0) in
     p1 <- elem (split ratio (str "x")) 1 ;;
     let h := parseInt (trim p1) in
     assign_videoResolution {| w := w; h := h |} ;;
     r <- read_videoResolution ;;
     Opendatacam_setVideoResolution r
   else ret tt) ;;
  b <- read_stdoutBuffer ;;
  assign_stdoutBuffer (b ++ stdoutText) ;;
  b <- read_stdoutBuffer ;;
  (* Keep buffer maximum to 3000 characters *)
  if (Z.of_nat (length b) >? 3000)%Z then
    assign_stdoutBuffer
      (substring b (Z.of_nat (length b) - 3000) (Z.of_nat (length b)))
  else ret tt.

(** What the scraping part of the callback makes of a chunk, the state
    left aside: nothing when the marker is absent, else the object it
    assigns or the exception it throws. *)
Definition scan (text : jsstring) : completion (option resolution) :=
  if (indexOf text marker >? -1)%Z then
    match nth_error (split text (str "stream:")) 1 with
    | None => Throw TypeError
    | Some s1 =>
        match nth_error (split s1 [LF]) 0 with
        | None => Throw TypeError
        | Some ratio =>
            match nth_error (split ratio (str "x")) 0,
                  nth_error (split ratio (str "x")) 1 with
            | Some p0, Some p1 =>
                Normal (Some {| w := parseInt (trim p0);
                                h := parseInt (trim p1) |})
            | _, _ => Throw TypeError
            end
        end
    end
  else Normal None.

Definition raises (text : jsstring) : bool :=
  match scan text with Throw _ => true | Normal _ => false end.

(** [SIMULATION_MODE = process.env.NODE_ENV !== 'production']; an unset
    variable reads [undefined]. *)
Definition SIMULATION_MODE (NODE_ENV : option jsstring) : bool :=
  match NODE_ENV with
  | Some v => negb (if list_eq_dec N.eq_dec v (str "production")
                    then true else false)
  | None => true
  end.

(** The state once the module body has run, before any output arrives. *)
Definition startup (NODE_ENV : option jsstring) : state :=
  if SIMULATION_MODE NODE_ENV then
    let videoResolution := {| w := Finite false 1280; h := Finite false 720 |} in
    {| videoResolution := Some videoResolution;
       stdoutBuffer := [];
       setVideoResolution_calls := [videoResolution] |}
  else
    {| videoResolution := None;
       stdoutBuffer := [];
       setVideoResolution_calls := [] |}.

(** The host calls the callback once per chunk written; a throw goes to
    the writer of that chunk and the next chunk is delivered all the same. *)
Definition deliver (st : state) (chunk : jsstring) : state :=
  snd (intercept_callback chunk st).

Definition feed (chunks : list jsstring) (st : state) : state :=
  fold_left deliver chunks st.

(** [GET /webcam/resolution] answers [res.json(videoResolution)] and
    [GET /console] answers [res.send(stdoutBuffer)]. *)
Definition get_webcam_resolution (st : state) : option resolution :=
  videoResolution st.

Definition get_console (st : state) : jsstring := stdoutBuffer st.

End Stdout.

Import Stdout.


(** ** Shutdown and fault handlers ([server.js], lines 523 to 552) *)

Module Process.

Inductive signal : Type := SIGINT | SIGUSR1 | SIGUSR2.

(** The events the module subscribes to with [process.on]. *)
Inductive event : Type :=
| Exit
| Signal (s : signal)
| UncaughtException.

Definition signal_eqb (a b : signal) : bool :=
  match a, b with
  | SIGINT, SIGINT | SIGUSR1, SIGUSR1 | SIGUSR2, SIGUSR2 => true
  | _, _ => false
  end.

Definition event_eqb (a b : event) : bool :=
  match a, b with
  | Exit, Exit | UncaughtException, UncaughtException => true
  | Signal x, Signal y => signal_eqb x y
  | _, _ => false
  end.

(** The values that reach the handlers: an exit code, a signal name, an
    error (by its description), or nothing. *)
Inductive value : Type :=
| VUndefined
| VNumber (n : Z)
| VString (s : jsstring)
| VError (description : jsstring).

Definition truthy (v : value) : bool :=
  match v with
  | VUndefined => false
  | VNumber n => negb (n =? 0)%Z
  | VString s => match s with [] => false | _ :: _ => true end
  | VError _ => true
  end.

(** [v === 0] *)
Definition is_zero (v : value) : bool :=
  match v with
  | VNumber n => (n =? 0)%Z
  | _ => false
  end.

(** The object bound as first argument of [exitHandler]; a property that
    the literal leaves out reads [undefined]. *)
Record options : Type := { cleanup : option bool; exit : option bool }.

Definition opt_truthy (o : option bool) : bool :=
  match o with Some b => b | None => false end.

(** What the handlers do to the outside, oldest first. *)
Inductive effect : Type :=
| Opendatacam_clean
| console_log (args : list value)
| reallyExit (code : Z).

Record proc : Type := {
  effects : list effect;
  exiting : bool;     (* [process._exiting] *)
  alive : bool
}.

Definition action : Type := proc -> proc.

Definition emit_effect (e : effect) : action :=
  fun p => {| effects := effects p ++ [e];
              exiting := exiting p;
              alive := alive p |}.

(** Sequencing: nothing runs once the process is gone. *)
Definition andThen (f g : action) : action :=
  fun p => let p' := f p in if alive p' then g p' else p'.

Definition skip : action := fun p => p.

Definition terminate (code : Z) : action :=
  fun p => {| effects := effects p ++ [reallyExit code];
              exiting := exiting p;
              alive := false |}.

Definition set_exiting : action :=
  fun p => {| effects := effects p; exiting := true; alive := alive p |}.

(** [exitHandler(options, exitCode)]; the test on [options.cleanup] is
    commented out in the source, so [Opendatacam.clean()] runs on every
    call.  [process_exit] is what [process.exit()] does where the handler
    runs. *)
Definition exitHandler (process_exit : action)
    (options : options) (exitCode : value) : action :=
  andThen (emit_effect Opendatacam_clean)
 (andThen (if truthy exitCode || is_zero exitCode
           then emit_effect (console_log [exitCode]) else skip)
          (if opt_truthy (exit options) then process_exit else skip)).

Definition pheew : jsstring :=
  str "Pheew ....! Something unexpected happened. This should be handled more gracefully. I am sorry. The culprit is: ".

(** The listener of ['uncaughtException']. *)
Definition uncaughtHandler (err : value) : action :=
  emit_effect (console_log [VString pheew; err]).

Inductive listener : Type :=
| ExitHandler (o : options)    (* [exitHandler.bind(null, o)] *)
| UncaughtHandler.

(** The [process.on] calls, in source order. *)
Definition registrations : list (event * listener) :=
  [ (Exit, ExitHandler {| cleanup := Some true; exit := None |});
    (Signal SIGINT, ExitHandler {| cleanup := None; exit := Some true |});
    (Signal SIGUSR1, ExitHandler {| cleanup := None; exit := Some true |});
    (Signal SIGUSR2, ExitHandler {| cleanup := None; exit := Some true |});
    (UncaughtException, UncaughtHandler) ].

Definition listeners (ev : event) : list listener :=
  map snd (filter (fun r => event_eqb (fst r) ev) registrations).

Definition call (process_exit : action) (l : listener) (arg : value) : action :=
  match l with
  | ExitHandler o => exitHandler process_exit o arg
  | UncaughtHandler => uncaughtHandler arg
  end.

(** [process.emit(ev, arg)]: the listeners run in registration order. *)
Definition emit (process_exit : action) (ev : event) (arg : value) : action :=
  fold_right (fun l k => andThen (call process_exit l arg) k) skip
             (listeners ev).

(** [process.exit()] raises the ['exit'] event once: it sets
    [process._exiting] first and a call made while that flag is set, as
    from an ['exit'] listener, goes straight to the exit. *)
Definition process_exit_again : action := terminate 0.

Definition process_exit : action :=
  fun p =>
    if exiting p then terminate 0 p
    else andThen (andThen set_exiting
                          (emit process_exit_again Exit (VNumber 0)))
                 (terminate 0) p.

Definition signal_name (s : signal) : jsstring :=
  match s with
  | SIGINT => str "SIGINT"
  | SIGUSR1 => str "SIGUSR1"
  | SIGUSR2 => str "SIGUSR2"
  end.

(** A signal with a listener no longer ends the process by itself; the
    listeners get its name. *)
Definition on_signal (s : signal) : action :=
  match listeners (Signal s) with
  | [] => terminate 0
  | _ :: _ => emit process_exit (Signal s) (VString (signal_name s))
  end.

(** The process ends because nothing is left to do, or because some part
    of the program called [process.exit()]. *)
Definition on_normal_exit : action := process_exit.

(** An exception nobody caught: with a listener the process lives on,
    without one it dies with code 1. *)
Definition on_uncaught (err : jsstring) : action :=
  match listeners UncaughtException with
  | [] => terminate 1
  | _ :: _ => emit process_exit UncaughtException (VError err)
  end.

Inductive shutdown : Type :=
| BySignal (s : signal)
| NormalExit.

Definition on_shutdown (e : shutdown) : action :=
  match e with
  | BySignal s => on_signal s
  | NormalExit => on_normal_exit
  end.

Definition is_clean (e : effect) : bool :=
  match e with Opendatacam_clean => true | _ => false end.

(** How many times [Opendatacam.clean()] was called. *)
Definition clean_calls (p : proc) : nat :=
  length (filter is_clean (effects p)).

Definition boot : proc := {| effects := []; exiting := false; alive := true |}.

End Process.


(** ** The engine supervisor *)

Module YOLO.

Inductive EngineProcessState : Type := NotStarted | Starting | Started.

Inductive hardware : Type := Simulated | Real.

(** Modelled from the spec: the supervisor's state is kept in the missing
    [server/processes/YOLO.js].  Section 3: the lifecycle flag; with it,
    the mode given to [init] and the engine processes spawned so far,
    oldest first. *)
Record supervisor : Type := {
  engineState : EngineProcessState;
  simulationMode : bool;
  spawned : list hardware
}.

(** Modelled from the spec: [init] of the missing [YOLO.js], called at
    line 26 with [SIMULATION_MODE].  Section 3: the state is created as
    NotStarted; section 6: the mode flag selects what is spawned. *)
Definition init (simulationMode : bool) : supervisor :=
  {| engineState := NotStarted;
     simulationMode := simulationMode;
     spawned := [] |}.

(** Modelled from the spec: [server/processes/YOLO.js], which defines
    [start], is missing from the sources.  Section 4.1: [start()] spawns
    the engine in the simulated or the real hardware mode and moves
    NotStarted to Starting; when the state is Starting or Started the call
    does nothing. *)
Definition start (st : supervisor) : supervisor :=
  match engineState st with
  | NotStarted =>
      {| engineState := Starting;
         simulationMode := simulationMode st;
         spawned := spawned st
                    ++ [if simulationMode st then Simulated else Real] |}
  | Starting | Started => st
  end.

(** Modelled from the spec: the confirmation that moves Starting to
    Started (section 4.1), also defined in the missing [YOLO.js]. *)
Definition confirm (st : supervisor) : supervisor :=
  match engineState st with
  | Starting =>
      {| engineState := Started;
         simulationMode := simulationMode st;
         spawned := spawned st |}
  | NotStarted | Started => st
  end.

(** What happens to the supervisor over time: a request for [/], whose
    handler calls [YOLO.start()] (line 82), or a confirmation. *)
Inductive step : Type := GetRoot | Confirm.

Definition run_step (st : supervisor) (s : step) : supervisor :=
  match s with
  | GetRoot => start st
  | Confirm => confirm st
  end.

Definition run_steps (steps : list step) (st : supervisor) : supervisor :=
  fold_left run_step steps st.

Definition is_GetRoot (s : step) : bool :=
  match s with GetRoot => true | Confirm => false end.

End YOLO.

(** ** The recording controller *)

Module Recording.

Definition time := Z.

(** Modelled from the spec: the RecordingSession of section 3, kept in
    the missing [server/Opendatacam.js]; the part of it the controller
    itself writes. *)
Record RecordingSession : Type := {
  areas : jsstring;             (* snapshot of the counting areas *)
  dateStart : time;
  dateEnd : option time
}.

(** [recording] is [Some] in state Recording and [None] in NotRecording;
    [persisted] lists the sessions handed to the storage collaborator,
    oldest first. *)
Record controller : Type := {
  recording : option RecordingSession;
  persisted : list RecordingSession
}.

Definition isRecording (st : controller) : bool :=
  match recording st with Some _ => true | None => false end.

(** Modelled from the spec: [server/Opendatacam.js], which defines
    [startRecording] (called at line 290), is missing from the sources.
    Section 4.5: [start()] does nothing when recording is active;
    otherwise it creates a session with the current counting areas and
    time and moves to Recording. *)
Definition startRecording (now : time) (currentAreas : jsstring)
    (st : controller) : controller :=
  match recording st with
  | Some _ => st
  | None =>
      {| recording := Some {| areas := currentAreas;
                              dateStart := now;
                              dateEnd := None |};
         persisted := persisted st |}
  end.

(** Modelled from the spec: [stopRecording] (called at line 305) of the
    missing [server/Opendatacam.js].  Section 4.5: [stop()] does nothing
    when not recording; otherwise it stamps the end time, hands the
    session to storage and moves to NotRecording. *)
Definition stopRecording (now : time) (st : controller) : controller :=
  match recording st with
  | None => st
  | Some s =>
      {| recording := None;
         persisted := persisted st
                      ++ [ {| areas := areas s;
                              dateStart := dateStart s;
                              dateEnd := Some now |} ] |}
  end.

(** The two routes, [GET /recording/start] and [GET /recording/stop],
    with the clock reading and the counting areas at the time of the
    request. *)
Inductive request : Type :=
| GetRecordingStart (now : time) (currentAreas : jsstring)
| GetRecordingStop (now : time).

Definition handle (st : controller) (r : request) : controller :=
  match r with
  | GetRecordingStart now a => startRecording now a st
  | GetRecordingStop now => stopRecording now st
  end.

Definition not_recording : controller := {| recording := None; persisted := [] |}.

End Recording.

(** ** The MJPEG stream ([server.js], lines 109 to 113) *)

Module Streams.

Inductive kind : Type := MJPEG | SSE.

(** A response channel, named by the order in which the requests came. *)
Definition channel := nat.

(** What a subscription holds: the client's response channel, and for
    MJPEG the upstream connection to the engine opened for it. *)
Inductive resource : Type :=
| Client (k : kind)
| Upstream.

Inductive stream_event : Type :=
| Open (r : resource) (c : channel)
| Close (r : resource) (c : channel)
| Write (k : kind) (c : channel).

Definition kind_eqb (a b : kind) : bool :=
  match a, b with
  | MJPEG, MJPEG | SSE, SSE => true
  | _, _ => false
  end.

Definition resource_eqb (a b : resource) : bool :=
  match a, b with
  | Client x, Client y => kind_eqb x y
  | Upstream, Upstream => true
  | _, _ => false
  end.

(** An [MjpegProxy] object of the package [mjpeg-proxy]: the responses it
    relays frames to and its request to the engine are fields of the
    object itself.  The request is named after the response it was
    opened for. *)
Record MjpegProxy : Type := {
  audienceResponses : list channel;
  mjpegRequest : option channel      (* [None] is [null] *)
}.

(** [new MjpegProxy(url)] *)
Definition new_MjpegProxy : MjpegProxy :=
  {| audienceResponses := []; mjpegRequest := None |}.

(** [self.proxyRequest(req, res)]: an object without a request to the
    engine opens one and takes [res] as its audience; an object that has
    one adds [res] to its audience.  It touches no other object. *)
Definition proxyRequest (self : MjpegProxy) (res : channel)
    : MjpegProxy * list stream_event :=
  match mjpegRequest self with
  | Some _ =>
      ({| audienceResponses := audienceResponses self ++ [res];
          mjpegRequest := mjpegRequest self |},
       [Open (Client MJPEG) res])
  | None =>
      ({| audienceResponses := audienceResponses self ++ [res];
          mjpegRequest := Some res |},
       [Open Upstream res; Open (Client MJPEG) res])
  end.

(** What there is while the server runs: the proxies the requests have
    built ([server.js] holds none of them in a variable, each lives on
    through its own connections), the next channel name, and what
    happened so far, oldest first. *)
Record streams : Type := {
  proxies : list MjpegProxy;
  next : channel;
  trace : list stream_event
}.

Definition no_subscriber : streams :=
  {| proxies := []; next := 0; trace := [] |}.

(** The handler of [GET /webcam/stream]:
    [new MjpegProxy(url).proxyRequest(req, res)], a new object at every
    request. *)
Definition get_webcam_stream (st : streams) : streams :=
  let res := next st in
  let '(proxy, es) := proxyRequest new_MjpegProxy res in
  {| proxies := proxies st ++ [proxy];
     next := S res;
     trace := trace st ++ es |}.

(** A frame comes in on the request of the [i]-th proxy, which writes it
    to each response of its audience. *)
Definition frame (i : nat) (st : streams) : streams :=
  match nth_error (proxies st) i with
  | Some proxy =>
      {| proxies := proxies st;
         next := next st;
         trace := trace st ++ map (Write MJPEG) (audienceResponses proxy) |}
  | None => st
  end.

(** [n] requests for the stream, one after the other. *)
Definition viewers (n : nat) : streams :=
  Nat.iter n get_webcam_stream no_subscriber.

(** The channels on which resource [r] is open after the events [tr],
    starting from the open channels [live]. *)
Definition track (r : resource) (live : list channel) (e : stream_event)
    : list channel :=
  match e with
  | Open r' c => if resource_eqb r r' then c :: live else live
  | Close r' c =>
      if resource_eqb r r' then filter (fun d => negb (Nat.eqb d c)) live
      else live
  | Write _ _ => live
  end.

Definition live_after (r : resource) (tr : list stream_event) : list channel :=
  fold_left (track r) tr [].

(** The resources a write of kind [k] goes through. *)
Definition resources_of (k : kind) : list resource :=
  match k with
  | MJPEG => [Client MJPEG; Upstream]
  | SSE => [Client SSE]
  end.

(** Exclusivity read off a trace: after every prefix each resource is
    open on at most one channel, and every write goes to a channel that
    is then the only one open. *)
Definition exclusive (tr : list stream_event) : Prop :=
  forall before e after, tr = before ++ e :: after ->
    (forall r, length (live_after r (before ++ [e])) <= 1) /\
    (forall k c, e = Write k c ->
       forall r, In r (resources_of k) -> live_after r before = [c]).

Definition is_Close (e : stream_event) : bool :=
  match e with Close _ _ => true | _ => false end.

End Streams.


(** ** The claims' own words, as definitions to compare the code with *)

Module Words.

(** The text before the first occurrence of [sep], or all of [s]. *)
Definition before_first (sep s : jsstring) : jsstring :=
  match breakOn sep s with
  | Some (b, _) => b
  | None => s
  end.

(** The last [n] code units of [s], or all of it when it is shorter. *)
Definition lastn (n : nat) (s : jsstring) : jsstring :=
  skipn (length s - n) s.

(** "The text following the first occurrence of the substring [stream:]
    in the whole chunk (up to the next newline)". *)
Definition segment_to_newline (text : jsstring) : option jsstring :=
  match breakOn (str "stream:") text with
  | Some (_, rest) => Some (before_first [LF] rest)
  | None => None
  end.

(** The same text, but ending at the next [stream:] when one comes
    before the newline. *)
Definition segment (text : jsstring) : option jsstring :=
  match breakOn (str "stream:") text with
  | Some (_, rest) =>
      Some (before_first [LF] (before_first (str "stream:") rest))
  | None => None
  end.

(** A run of decimal digits, given by the digits' values. *)
Definition decimal (ds : list N) : jsstring :=
  map (fun d => (48 + d)%N) ds.

(** White space that does not end the line. *)
Definition inline_space (c : char16) : bool :=
  is_whitespace c && negb (c =? LF)%N.

(** What follows the marker on a well-formed announcement line: two
    runs of digits around an [x], with optional white space. *)
Definition announcement (ws1 : jsstring) (dw : list N) (ws2 ws3 : jsstring)
    (dh : list N) (ws4 : jsstring) : jsstring :=
  ws1 ++ decimal dw ++ ws2 ++ str "x" ++ ws3 ++ decimal dh ++ ws4.

(** No code unit of a list is [c]. *)
Definition avoids (c : char16) (l : jsstring) : Prop :=
  Forall (fun d => d <> c) l.

(** "The suffix (last min(3000, total length) characters) of the
    concatenation of all chunks fed so far". *)
Definition console_tail (chunks : list jsstring) : jsstring :=
  lastn 3000 (concat chunks).

End Words.

Import Words.

(** ** Chunks used as examples *)

Module Chunks.

Definition announce_640_480 : jsstring :=
  str "Video stream: 640 x 480" ++ [LF].

Definition announce_notanumber : jsstring :=
  str "Video stream: notanumber x 480" ++ [LF].

(** An announcement cut short: no [x] on the line. *)
Definition announce_no_x : jsstring :=
  str "Video stream: 640" ++ [LF].

(** An earlier [stream:] in the same chunk. *)
Definition two_streams : jsstring :=
  str "stream: 1 x 2" ++ [LF] ++ str "Video stream: 640 x 480" ++ [LF].

(** An earlier [stream:] with no [x] on its line. *)
Definition upstream_then_announcement : jsstring :=
  str "upstream: ok" ++ [LF] ++ str "Video stream: 640 x 480" ++ [LF].

(** A second [stream:] on the announcement line. *)
Definition stream_twice_on_line : jsstring :=
  str "Video stream: 1 x 2 stream:3" ++ [LF].

Definition production : option jsstring := Some (str "production").

End Chunks.

Import Chunks.

(** ** What a run of chunks amounts to *)

Module Run.

(** The objects read from the chunks on which the scraping completes, in
    the order of the chunks. *)
Definition announced (chunks : list jsstring) : list resolution :=
  flat_map (fun c => match scan c with
                     | Normal (Some r) => [r]
                     | _ => []
                     end) chunks.

(** The chunks on which the callback does not throw. *)
Definition delivered (chunks : list jsstring) : list jsstring :=
  filter (fun c => negb (raises c)) chunks.

(** The last element of a list, if any. *)
Definition latest {A} (l : list A) : option A :=
  match rev l with
  | [] => None
  | a :: _ => Some a
  end.

(** What [parseInt] makes of the text that follows the sign: the prefix
    test and the run of digits. *)
Definition unsigned_part (neg : bool) (s2 : jsstring) : number :=
  let '(R, s3) :=
    match s2 with
    | c0 :: c1 :: t =>
        if ((c0 =? 48) && ((c1 =? 120) || (c1 =? 88)))%N then (16%N, t)
        else (10%N, s2)
    | _ => (10%N, s2)
    end in
  match takeDigits R s3 with
  | [] => NaN
  | ds => to_number neg (mathInt R ds)
  end.

End Run.

Import Run.

(** ** The listening port ([server.js], line 20) *)

Module Port.

(** [ToInt32] of an integer. *)
Definition ToInt32 (z : Z) : Z :=
  ((z + 2 ^ 31) mod 2 ^ 32 - 2 ^ 31)%Z.

(** [parseInt(s, radix)]: a radix outside 2..36 (0 apart, which stands
    for none) gives [NaN], and only radix 16 or none lets a [0x] prefix
    through. *)
Definition parseInt_radix (s : jsstring) (radix : Z) : number :=
  let s1 := dropWhile is_whitespace s in
  let '(neg, s2) :=
    match s1 with
    | c :: t => if (c =? 45)%N then (true, t)
                else if (c =? 43)%N then (false, t)
                else (false, s1)
    | [] => (false, [])
    end in
  let R := ToInt32 radix in
  if negb (R =? 0)%Z && ((R <? 2)%Z || (36 <? R)%Z) then NaN
  else
    let stripPrefix := (R =? 0)%Z || (R =? 16)%Z in
    let R0 := if (R =? 0)%Z then 10%N else Z.to_N R in
    let '(R1, s3) :=
      match s2 with
      | c0 :: c1 :: t =>
          if (stripPrefix && (c0 =? 48) && ((c1 =? 120) || (c1 =? 88)))%N
          then (16%N, t)
          else (R0, s2)
      | _ => (R0, s2)
      end in
    match takeDigits R1 s3 with
    | [] => NaN
    | ds => to_number neg (mathInt R1 ds)
    end.

(** A Number as a condition: [NaN] and the two zeros are false. *)
Definition truthy (n : number) : bool :=
  match n with
  | NaN => false
  | Infinity _ => true
  | Finite _ m => negb (m =? 0)%N
  end.

(** [process.env.PORT] as the argument of [parseInt]: an unset variable
    reads [undefined], whose string is ["undefined"]. *)
Definition ToString (v : option jsstring) : jsstring :=
  match v with
  | Some s => s
  | None => str "undefined"
  end.

(** [const port = parseInt(process.env.PORT, 10) || 8080] *)
Definition port (PORT : option jsstring) : number :=
  let n := parseInt_radix (ToString PORT) 10 in
  if truthy n then n else Finite false 8080.

End Port.

(** ** Faults in a row *)

Module Faults.

Import Process.

(** Uncaught exceptions, one after the other. *)
Definition faults (errs : list jsstring) (p : proc) : proc :=
  fold_left (fun q err => on_uncaught err q) errs p.

End Faults.

(** ** The initializing view (the React component [InitializingView]) *)

Module InitializingView.

(** The fields the constructor sets: [this.estimatedDuration],
    [this.timeStarted] ([None] is [null]) and [this.state.showConsole]. *)
Record component : Type := {
  estimatedDuration : Z;
  timeStarted : option Z;
  showConsole : bool
}.

Definition constructor : component :=
  {| estimatedDuration := 30; timeStarted := None; showConsole := false |}.

(** [this.setState({showConsole: v})] *)
Definition setState (v : bool) (c : component) : component :=
  {| estimatedDuration := estimatedDuration c;
     timeStarted := timeStarted c;
     showConsole := v |}.

(** The children of the outer [div] that [render] returns.  A button
    carries its label and the value its [onClick] gives to [showConsole]. *)
Inductive node : Type :=
| Heading (text : jsstring)
| ProgressBar
| Button (label : jsstring) (onClick : bool)
| ConsolePanel
| Style.

(** [cond && <element>] renders the element or nothing. *)
Definition when (cond : bool) (n : node) : list node :=
  if cond then [n] else [].

Definition render (c : component) : list node :=
  [Heading (str "Initializing Open Data Cam"); ProgressBar]
  ++ when (negb (showConsole c)) (Button (str "Show details") true)
  ++ when (showConsole c) (Button (str "Hide details") false)
  ++ when (showConsole c) ConsolePanel
  ++ [Style].

(** A click on a node: a button runs its [onClick], the rest reacts to
    nothing. *)
Definition click (n : node) (c : component) : component :=
  match n with
  | Button _ v => setState v c
  | _ => c
  end.

Definition is_button (n : node) : bool :=
  match n with Button _ _ => true | _ => false end.

Definition is_console (n : node) : bool :=
  match n with ConsolePanel => true | _ => false end.

End InitializingView.

(* ================================================================== *)
(** * Part II: properties *)
(* ================================================================== *)

(** ** Strings *)

Section StringFacts.

Lemma prefixb_app (p r : jsstring) : prefixb p (p ++ r) = true.
Proof.
  induction p as [|a p IH]; simpl; [reflexivity|].
  now rewrite N.eqb_refl, IH.
Qed.

Lemma prefixb_inv (p s : jsstring) :
  prefixb p s = true -> s = p ++ skipn (length p) s.
Proof.
  revert s; induction p as [|a p IH]; intros [|b s]; simpl; try easy.
  intros H. apply andb_true_iff in H as [Hab Hp].
  apply N.eqb_eq in Hab. subst b. f_equal. now apply IH.
Qed.

(** A match of [sep] that begins inside [a] and runs over into [c :: b]
    uses [c]. *)
Lemma prefixb_app_inv (sep a : jsstring) c b :
  prefixb sep (a ++ c :: b) = true -> prefixb sep a = true \/ In c sep.
Proof.
  revert a; induction sep as [|s sep IH]; intros a; [now left|].
  destruct a as [|a0 a]; simpl.
  - intros H. apply andb_true_iff in H as [H _].
    apply N.eqb_eq in H. right; left. now symmetry.
  - intros H. apply andb_true_iff in H as [H0 H].
    rewrite H0. destruct (IH _ H) as [->|Hin]; [now left|right; now right].
Qed.

Lemma breakOn_Some sep s b a :
  breakOn sep s = Some (b, a) -> s = b ++ sep ++ a.
Proof.
  revert b; induction s as [|c s IH]; intros b; simpl.
  - destruct (prefixb sep []) eqn:E; [|discriminate].
    intros [= <- <-]. simpl. now apply prefixb_inv in E.
  - destruct (prefixb sep (c :: s)) eqn:E.
    + intros [= <- <-]. simpl. now apply prefixb_inv in E.
    + destruct (breakOn sep s) as [[b' a']|]; [|discriminate].
      intros [= <- <-]. simpl. f_equal. now apply IH.
Qed.

Lemma breakOn_shorter sep s b a :
  sep <> [] -> breakOn sep s = Some (b, a) -> length a < length s.
Proof.
  intros Hsep H. apply breakOn_Some in H. subst s.
  rewrite !length_app. destruct sep; [easy|simpl; lia].
Qed.

Lemma breakOn_here sep r :
  breakOn sep (sep ++ r) = Some ([], r).
Proof.
  destruct (sep ++ r) eqn:E; simpl; rewrite <- E, prefixb_app;
    now rewrite skipn_app, skipn_all, Nat.sub_diag.
Qed.

(** The first occurrence is found: one that is known to begin after [l]
    bounds the text before the cut. *)
Lemma breakOn_app sep l r :
  exists b a t, breakOn sep (l ++ sep ++ r) = Some (b, a) /\ l = b ++ t.
Proof.
  induction l as [|c l (b & a & t & IH & ->)]; simpl.
  - rewrite breakOn_here. now exists [], r, [].
  - destruct (prefixb sep (c :: (b ++ t) ++ sep ++ r)).
    + eexists [], _, _. split; reflexivity.
    + rewrite IH. exists (c :: b), a, t. now split.
Qed.

(** No occurrence begins at a code unit different from the separator's
    first one. *)
Lemma breakOn_skip s0 sep a b :
  Forall (fun c => c <> s0) a ->
  breakOn (s0 :: sep) (a ++ b) =
  match breakOn (s0 :: sep) b with
  | Some (x, y) => Some (a ++ x, y)
  | None => None
  end.
Proof.
  induction 1 as [|c a Hc _ IH].
  - simpl app. now destruct (breakOn (s0 :: sep) b) as [[x y]|].
  - change ((c :: a) ++ b) with (c :: (a ++ b)).
    cbn [breakOn prefixb]. apply N.eqb_neq in Hc.
    rewrite N.eqb_sym in Hc. rewrite Hc. cbn [andb].
    rewrite IH. now destruct (breakOn (s0 :: sep) b) as [[x y]|].
Qed.

Lemma breakOn_nil sep : sep <> [] -> breakOn sep [] = None.
Proof. now destruct sep. Qed.

(** [indexOf] finds what [breakOn] finds. *)
Lemma indexOf_breakOn s sub :
  indexOf s sub =
  match breakOn sub s with
  | Some (b, _) => Z.of_nat (length b)
  | None => (-1)%Z
  end.
Proof.
  induction s as [|c s IH]; simpl.
  - now destruct (prefixb sub []).
  - destruct (prefixb sub (c :: s)); [reflexivity|].
    rewrite IH. destruct (breakOn sub s) as [[b a]|]; [|reflexivity].
    destruct (Z.ltb_spec (Z.of_nat (length b)) 0); [lia|].
    simpl length. lia.
Qed.

Lemma indexOf_found s sub :
  (indexOf s sub >? -1)%Z = true ->
  exists b a, breakOn sub s = Some (b, a).
Proof.
  rewrite indexOf_breakOn. destruct (breakOn sub s) as [[b a]|]; [eauto|].
  discriminate.
Qed.

Lemma indexOf_not_found s sub :
  breakOn sub s = None -> (indexOf s sub >? -1)%Z = false.
Proof. rewrite indexOf_breakOn. now intros ->. Qed.

(** The fuel [split] starts with is never used up. *)
Lemma split_fuel_enough sep n m s :
  sep <> [] -> length s < n -> length s < m ->
  split_fuel n sep s = split_fuel m sep s.
Proof.
  intros Hsep. revert m s; induction n as [|n IH]; intros m s Hn Hm; [lia|].
  destruct m as [|m]; [lia|]. simpl.
  destruct (breakOn sep s) as [[b a]|] eqn:E; [|reflexivity].
  f_equal. pose proof (breakOn_shorter _ _ _ _ Hsep E). apply IH; lia.
Qed.

(** The equation of [split], free of fuel. *)
Lemma split_eq s sep :
  sep <> [] ->
  split s sep =
  match breakOn sep s with
  | Some (b, a) => b :: split a sep
  | None => [s]
  end.
Proof.
  intros Hsep. unfold split. destruct sep as [|s0 sep]; [easy|].
  change (split_fuel (S (length s)) (s0 :: sep) s)
    with (match breakOn (s0 :: sep) s with
          | None => [s]
          | Some (b, a) => b :: split_fuel (length s) (s0 :: sep) a
          end).
  destruct (breakOn (s0 :: sep) s) as [[b a]|] eqn:E; [|reflexivity].
  f_equal. pose proof (breakOn_shorter _ _ _ _ Hsep E).
  apply split_fuel_enough; [easy|lia|lia].
Qed.

(** [split] loses nothing: joining the pieces gives the text back. *)
Lemma join_split s sep : sep <> [] -> join sep (split s sep) = s.
Proof.
  intros Hsep. remember (length s) as n eqn:Hn.
  revert s Hn. induction n as [n IH] using lt_wf_ind. intros s ->.
  rewrite split_eq by easy.
  destruct (breakOn sep s) as [[b a]|] eqn:E; [|reflexivity].
  pose proof (breakOn_shorter _ _ _ _ Hsep E) as Hlt.
  pose proof (IH _ Hlt a eq_refl) as IHa.
  apply breakOn_Some in E. subst s.
  cbn [join]. rewrite IHa.
  rewrite split_eq by easy. now destruct (breakOn sep a) as [[? ?]|].
Qed.

Lemma split_0 s sep :
  sep <> [] -> nth_error (split s sep) 0 = Some (before_first sep s).
Proof.
  intros Hsep. rewrite split_eq by easy. unfold before_first.
  now destruct (breakOn sep s) as [[b a]|].
Qed.

Lemma split_1 s sep :
  sep <> [] ->
  nth_error (split s sep) 1 =
  match breakOn sep s with
  | Some (_, a) => Some (before_first sep a)
  | None => None
  end.
Proof.
  intros Hsep. rewrite split_eq by easy.
  destruct (breakOn sep s) as [[b a]|]; [|reflexivity].
  cbn [nth_error]. now apply split_0.
Qed.

End StringFacts.

(** ** The interception callback *)

Section CallbackFacts.

Lemma lastn_short n (s : jsstring) : length s <= n -> lastn n s = s.
Proof.
  intros H. unfold lastn. now replace (length s - n) with 0 by lia.
Qed.

Lemma lastn_length n (s : jsstring) : length (lastn n s) = Nat.min n (length s).
Proof. unfold lastn. rewrite length_skipn. lia. Qed.

(** Cutting twice is cutting once. *)
Lemma lastn_app_lastn n (a c : jsstring) :
  lastn n (lastn n a ++ c) = lastn n (a ++ c).
Proof.
  unfold lastn. rewrite !length_app, length_skipn.
  rewrite !skipn_app, length_skipn, skipn_skipn.
  f_equal; [f_equal; lia|f_equal; lia].
Qed.

(** The [substring] call of line 67 keeps the last 3000 code units. *)
Lemma substring_tail (b : jsstring) :
  substring b (Z.of_nat (length b) - 3000) (Z.of_nat (length b))
  = lastn 3000 b.
Proof.
  unfold substring, lastn.
  set (len := Z.of_nat (length b)).
  assert (Hlen : (0 <= len)%Z) by (unfold len; lia).
  replace (Z.min (Z.max len 0) len) with len by lia.
  set (a := Z.min (Z.max (len - 3000) 0) len).
  assert (Ha : a = Z.of_nat (length b - 3000)) by (unfold a, len; lia).
  replace (Z.min a len) with a by lia.
  replace (Z.max a len) with len by lia.
  rewrite Ha, Nat2Z.id.
  apply firstn_all2. rewrite length_skipn. unfold len. lia.
Qed.

(** The callback, read as one step on the state. *)
Lemma intercept_callback_scan text st :
  intercept_callback text st =
  match scan text with
  | Throw e => (Throw e, st)
  | Normal r =>
      (Normal tt,
       {| videoResolution := match r with
                             | Some v => Some v
                             | None => videoResolution st
                             end;
          stdoutBuffer := lastn 3000 (stdoutBuffer st ++ text);
          setVideoResolution_calls :=
            setVideoResolution_calls st
            ++ match r with Some v => [v] | None => [] end |})
  end.
Proof.
  assert (Hbuf : forall v c,
    (b <- read_stdoutBuffer ;;
     assign_stdoutBuffer (b ++ text) ;;
     b <- read_stdoutBuffer ;;
     if (Z.of_nat (length b) >? 3000)%Z then
       assign_stdoutBuffer
         (substring b (Z.of_nat (length b) - 3000) (Z.of_nat (length b)))
     else ret tt)
      {| videoResolution := v; stdoutBuffer := stdoutBuffer st;
         setVideoResolution_calls := c |}
    = (Normal tt,
       {| videoResolution := v;
          stdoutBuffer := lastn 3000 (stdoutBuffer st ++ text);
          setVideoResolution_calls := c |})).
  { intros v c. unfold bind, read_stdoutBuffer, assign_stdoutBuffer, ret.
    cbn [stdoutBuffer videoResolution setVideoResolution_calls].
    destruct (Z.gtb_spec (Z.of_nat (length (stdoutBuffer st ++ text))) 3000).
    - now rewrite substring_tail.
    - rewrite lastn_short by lia. reflexivity. }
  unfold intercept_callback, scan, ratio_of.
  match goal with
  | |- bind _ (fun _ => ?k) _ = _ => set (K := k) in *
  end.
  cbv [bind elem ret throw assign_videoResolution read_videoResolution
       Opendatacam_setVideoResolution].
  destruct (indexOf text marker >? -1)%Z.
  - destruct (nth_error (split text (str "stream:")) 1) as [s1|];
      [|reflexivity].
    destruct (nth_error (split s1 [LF]) 0) as [ratio|]; [|reflexivity].
    destruct (nth_error (split ratio (str "x")) 0) as [p0|]; [|reflexivity].
    destruct (nth_error (split ratio (str "x")) 1) as [p1|]; [|reflexivity].
    cbn [stdoutBuffer videoResolution setVideoResolution_calls].
    apply Hbuf.
  - destruct st as [v b c]. cbn [stdoutBuffer] in Hbuf.
    rewrite Hbuf. cbn [videoResolution setVideoResolution_calls].
    now rewrite app_nil_r.
Qed.

Lemma stream_ne : str "stream:" <> [].
Proof. discriminate. Qed.

Lemma x_ne : str "x" <> [].
Proof. discriminate. Qed.

Lemma LF_ne : [LF] <> [].
Proof. discriminate. Qed.

Lemma marker_eq : marker = str "Video " ++ str "stream:".
Proof. reflexivity. Qed.

(** A chunk with the marker has a first [stream:], no later than the
    marker's own. *)
Lemma marker_has_stream text :
  (indexOf text marker >? -1)%Z = true ->
  exists pre rest, breakOn (str "stream:") text = Some (pre, rest).
Proof.
  intros H. apply indexOf_found in H as (b & a & H).
  apply breakOn_Some in H. subst text.
  rewrite marker_eq, <- app_assoc, app_assoc.
  destruct (breakOn_app (str "stream:") (b ++ str "Video ") a)
    as (pre & rest & t & E & _).
  eauto.
Qed.

(** What [scan] does with a chunk that has the marker: it reads the text
    after the first [stream:], up to the next [stream:] or line feed, and
    needs an [x] in it. *)
Lemma scan_marker text pre rest :
  (indexOf text marker >? -1)%Z = true ->
  breakOn (str "stream:") text = Some (pre, rest) ->
  scan text =
  match breakOn (str "x")
          (before_first [LF] (before_first (str "stream:") rest)) with
  | Some (p0, a) =>
      Normal (Some {| w := parseInt (trim p0);
                      h := parseInt (trim (before_first (str "x") a)) |})
  | None => Throw TypeError
  end.
Proof.
  intros Hm E. unfold scan. rewrite Hm.
  rewrite (split_1 _ _ stream_ne), E.
  rewrite (split_0 _ _ LF_ne).
  rewrite (split_0 _ _ x_ne), (split_1 _ _ x_ne).
  set (seg := before_first [LF] (before_first (str "stream:") rest)).
  change (before_first (str "x") seg)
    with (match breakOn (str "x") seg with
          | Some (b, _) => b
          | None => seg
          end).
  now destruct (breakOn (str "x") seg) as [[p0 a]|].
Qed.

Lemma ratio_of_segment text pre rest st :
  breakOn (str "stream:") text = Some (pre, rest) ->
  ratio_of text st =
  (Normal (before_first [LF] (before_first (str "stream:") rest)), st).
Proof.
  intros E. unfold ratio_of. cbv [bind elem ret throw].
  rewrite (split_1 _ _ stream_ne), E.
  now rewrite (split_0 _ _ LF_ne).
Qed.

Lemma deliver_scan st text :
  deliver st text =
  match scan text with
  | Throw _ => st
  | Normal r =>
      {| videoResolution := match r with
                            | Some v => Some v
                            | None => videoResolution st
                            end;
         stdoutBuffer := lastn 3000 (stdoutBuffer st ++ text);
         setVideoResolution_calls :=
           setVideoResolution_calls st
           ++ match r with Some v => [v] | None => [] end |}
  end.
Proof.
  unfold deliver. rewrite intercept_callback_scan.
  now destruct (scan text).
Qed.

Lemma breakOn_char c (a r : jsstring) :
  ~ In c a -> breakOn [c] (a ++ c :: r) = Some (a, r).
Proof.
  intros Hin. rewrite breakOn_skip.
  - change (c :: r) with ([c] ++ r). rewrite breakOn_here.
    now rewrite app_nil_r.
  - apply Forall_forall. intros d Hd ->. now apply Hin.
Qed.

Lemma deliver_keeps_resolution st text :
  videoResolution st <> None -> videoResolution (deliver st text) <> None.
Proof.
  intros H. rewrite deliver_scan.
  destruct (scan text) as [[r|]|]; cbn [videoResolution]; easy.
Qed.

Lemma feed_keeps_resolution chunks st :
  videoResolution st <> None -> videoResolution (feed chunks st) <> None.
Proof.
  revert st; induction chunks as [|c chunks IH]; intros st H; [easy|].
  apply IH. now apply deliver_keeps_resolution.
Qed.

Lemma deliver_bounded st text :
  length (stdoutBuffer st) <= 3000 ->
  length (stdoutBuffer (deliver st text)) <= 3000.
Proof.
  intros H. rewrite deliver_scan.
  destruct (scan text); cbn [stdoutBuffer]; [|easy].
  rewrite lastn_length. lia.
Qed.

(** The part of C2 that holds always: whatever is fed, and whether or not
    a call throws, the buffer never holds more than 3000 code units. *)
Theorem stdoutBuffer_bounded chunks st :
  length (stdoutBuffer st) <= 3000 ->
  length (stdoutBuffer (feed chunks st)) <= 3000.
Proof.
  revert st; induction chunks as [|c chunks IH]; intros st H; [easy|].
  apply IH. now apply deliver_bounded.
Qed.

(** The part of C2 that holds when no call throws: the buffer is then the
    tail of everything fed. *)
Theorem stdoutBuffer_tail chunks st :
  Forall (fun c => raises c = false) chunks ->
  length (stdoutBuffer st) <= 3000 ->
  stdoutBuffer (feed chunks st)
  = lastn 3000 (stdoutBuffer st ++ concat chunks).
Proof.
  intros Hall. revert st.
  induction Hall as [|c chunks Hc _ IH]; intros st Hlen.
  - cbn [feed fold_left concat]. rewrite app_nil_r.
    now rewrite lastn_short.
  - cbn [feed fold_left concat].
    change (fold_left deliver chunks (deliver st c))
      with (feed chunks (deliver st c)).
    rewrite IH by now apply deliver_bounded.
    rewrite deliver_scan. unfold raises in Hc.
    destruct (scan c); [|discriminate]. cbn [stdoutBuffer].
    now rewrite lastn_app_lastn, <- app_assoc.
Qed.

End CallbackFacts.

(** ** Reading the two numbers *)

Section NumberFacts.

Lemma to_number_exact neg m : (m < 2 ^ 53)%N -> to_number neg m = Finite neg m.
Proof.
  intros H. unfold to_number. apply N.ltb_lt in H. now rewrite H.
Qed.

(** What matters of a digit's code unit. *)
Lemma digit_unit d :
  (d < 10)%N ->
  is_whitespace (48 + d)%N = false /\
  digit_in_radix 10 (48 + d)%N = Some d /\
  ((48 + d =? 45) = false /\ (48 + d =? 43) = false /\
   (48 + d =? 120) = false /\ (48 + d =? 88) = false)%N /\
  (48 + d <> 115 /\ 48 + d <> 120 /\ 48 + d <> LF)%N.
Proof.
  intros H.
  assert (Hd : In d [0; 1; 2; 3; 4; 5; 6; 7; 8; 9]%N) by (simpl; lia).
  simpl in Hd.
  repeat (destruct Hd as [<-|Hd]; [vm_compute; intuition discriminate|]).
  easy.
Qed.

(** White space is none of the code units the parser cuts at. *)
Lemma space_unit c :
  inline_space c = true ->
  is_whitespace c = true /\ (c <> 115 /\ c <> 120 /\ c <> LF)%N.
Proof.
  unfold inline_space. intros H. apply andb_true_iff in H as [Hw Hn].
  split; [easy|]. repeat split; intros ->; discriminate.
Qed.

Lemma dropWhile_stop p (a : jsstring) c r :
  Forall (fun x => p x = true) a -> p c = false ->
  dropWhile p (a ++ c :: r) = c :: r.
Proof.
  intros Ha Hc. induction Ha as [|x a Hx _ IH]; simpl.
  - now rewrite Hc.
  - now rewrite Hx.
Qed.

Lemma decimal_cons (ds : list N) :
  ds <> [] -> exists d ds', ds = d :: ds'.
Proof. destruct ds as [|d ds']; [easy|eauto]. Qed.

(** [trim] strips the white space around a run of digits. *)
Lemma trim_decimal ws1 ds ws2 :
  Forall (fun c => is_whitespace c = true) ws1 ->
  Forall (fun c => is_whitespace c = true) ws2 ->
  ds <> [] -> Forall (fun d => (d < 10)%N) ds ->
  trim (ws1 ++ decimal ds ++ ws2) = decimal ds.
Proof.
  intros H1 H2 Hne Hds. unfold trim.
  destruct (decimal_cons ds Hne) as (d & ds' & Eds).
  assert (Hd : (d < 10)%N) by (subst ds; now inversion Hds).
  assert (E1 : dropWhile is_whitespace (ws1 ++ decimal ds ++ ws2)
               = decimal ds ++ ws2).
  { subst ds. cbn [decimal map app].
    apply dropWhile_stop; [easy|apply (digit_unit d Hd)]. }
  rewrite E1, rev_app_distr.
  assert (Hr : exists e es, rev (decimal ds) = (48 + e)%N :: es
                            /\ (e < 10)%N).
  { unfold decimal. rewrite <- map_rev.
    apply Forall_rev in Hds.
    destruct (rev ds) as [|e es] eqn:E.
    - apply (f_equal (@length _)) in E. rewrite length_rev in E.
      subst ds. discriminate.
    - exists e, (map (fun d0 => (48 + d0)%N) es). split; [easy|].
      now inversion Hds. }
  destruct Hr as (e & es & Hr & He).
  rewrite Hr, dropWhile_stop.
  - transitivity (rev (rev (decimal ds)));
      [now rewrite Hr|apply rev_involutive].
  - now apply Forall_rev.
  - apply (digit_unit e He).
Qed.

Lemma takeDigits_decimal ds :
  Forall (fun d => (d < 10)%N) ds -> takeDigits 10 (decimal ds) = ds.
Proof.
  induction 1 as [|d ds Hd _ IH]; [reflexivity|].
  cbn [decimal map takeDigits].
  destruct (digit_unit d Hd) as (_ & -> & _).
  f_equal. exact IH.
Qed.

(** [parseInt] of a run of decimal digits is the number they write. *)
Lemma parseInt_decimal ds :
  ds <> [] -> Forall (fun d => (d < 10)%N) ds ->
  parseInt (decimal ds) = to_number false (mathInt 10 ds).
Proof.
  intros Hne Hds. pose proof (takeDigits_decimal ds Hds) as Ht.
  destruct ds as [|d ds']; [easy|].
  assert (Hd : (d < 10)%N) by now inversion Hds.
  destruct (digit_unit d Hd) as (Hw & _ & (H45 & H43 & _) & _).
  unfold parseInt.
  cbn [decimal map dropWhile]. rewrite Hw, H45, H43.
  destruct ds' as [|d1 ds''].
  - cbn [decimal map] in Ht. cbn [map]. cbv beta iota.
    rewrite Ht. reflexivity.
  - assert (Hd1 : (d1 < 10)%N)
      by (inversion Hds as [|? ? _ Hx]; now inversion Hx).
    destruct (digit_unit d1 Hd1) as (_ & _ & (_ & _ & H120 & H88) & _).
    cbn [decimal map] in Ht. cbn [map]. rewrite H120, H88, andb_false_r.
    cbv beta iota. rewrite Ht. reflexivity.
Qed.

Lemma avoids_app c a b : avoids c a -> avoids c b -> avoids c (a ++ b).
Proof. intros; now apply Forall_app. Qed.

Lemma avoids_decimal c ds :
  (c = 115 \/ c = 120 \/ c = LF)%N ->
  Forall (fun d => (d < 10)%N) ds -> avoids c (decimal ds).
Proof.
  intros Hc Hds. unfold avoids, decimal. apply Forall_map.
  eapply Forall_impl; [|exact Hds]. cbn beta. intros d Hd.
  destruct (digit_unit d Hd) as (_ & _ & _ & H1 & H2 & H3).
  now destruct Hc as [->|[->| ->]].
Qed.

Lemma avoids_space c ws :
  (c = 115 \/ c = 120 \/ c = LF)%N ->
  Forall (fun d => inline_space d = true) ws -> avoids c ws.
Proof.
  intros Hc Hws. unfold avoids.
  eapply Forall_impl; [|exact Hws]. cbn beta. intros d Hd.
  destruct (space_unit d Hd) as (_ & H1 & H2 & H3).
  now destruct Hc as [->|[->| ->]].
Qed.

Lemma avoids_In c l : avoids c l -> ~ In c l.
Proof.
  intros H Hin. unfold avoids in H. rewrite Forall_forall in H.
  now apply (H c Hin).
Qed.

Lemma before_first_skip s0 sep a b :
  avoids s0 a ->
  before_first (s0 :: sep) (a ++ b) = a ++ before_first (s0 :: sep) b.
Proof.
  intros H. unfold before_first. rewrite (breakOn_skip _ _ _ _ H).
  now destruct (breakOn (s0 :: sep) b) as [[x y]|].
Qed.

Lemma before_first_nil sep : before_first sep [] = [].
Proof.
  unfold before_first. destruct (breakOn sep []) as [[b a]|] eqn:E; [|easy].
  apply breakOn_Some in E. symmetry in E.
  now apply app_eq_nil in E as [-> _].
Qed.

Lemma before_first_none c (a : jsstring) :
  avoids c a -> before_first [c] a = a.
Proof.
  intros H. rewrite <- (app_nil_r a) at 1.
  rewrite (before_first_skip _ _ _ _ H), before_first_nil.
  apply app_nil_r.
Qed.

Lemma before_first_char c (a r : jsstring) :
  avoids c a -> before_first [c] (a ++ c :: r) = a.
Proof.
  intros H. unfold before_first.
  now rewrite (breakOn_char _ _ _ (avoids_In _ _ H)).
Qed.

(** A match that would begin in [a] cannot run over a code unit the
    separator does not have. *)
Lemma breakOn_none_app sep a c b :
  breakOn sep a = None -> ~ In c sep ->
  breakOn sep (a ++ c :: b) =
  match breakOn sep (c :: b) with
  | Some (x, y) => Some (a ++ x, y)
  | None => None
  end.
Proof.
  intros Ha Hc. remember (breakOn sep (c :: b)) as B eqn:EB.
  induction a as [|d a IH].
  - simpl app. rewrite <- EB. now destruct B as [[x y]|].
  - cbn [breakOn] in Ha.
    destruct (prefixb sep (d :: a)) eqn:Ep; [discriminate|].
    destruct (breakOn sep a) as [[x y]|] eqn:Ea; [discriminate|].
    change ((d :: a) ++ c :: b) with (d :: (a ++ c :: b)).
    cbn [breakOn].
    destruct (prefixb sep (d :: a ++ c :: b)) eqn:Eq.
    + change (d :: a ++ c :: b) with ((d :: a) ++ c :: b) in Eq.
      apply prefixb_app_inv in Eq as [Eq|Eq]; [congruence|contradiction].
    + rewrite (IH eq_refl). now destruct B as [[x y]|].
Qed.

Lemma before_first_prefix sep s : exists t, s = before_first sep s ++ t.
Proof.
  unfold before_first. destruct (breakOn sep s) as [[b a]|] eqn:E.
  - apply breakOn_Some in E. now exists (sep ++ a).
  - exists []. now rewrite app_nil_r.
Qed.

(** Text that starts, after white space, with neither a sign nor a
    decimal digit is not a number. *)
Lemma parseInt_no_digit s c t :
  dropWhile is_whitespace s = c :: t ->
  digit_in_radix 10 c = None -> c <> 45%N -> c <> 43%N ->
  parseInt s = NaN.
Proof.
  intros Hs Hd H45 H43. unfold parseInt. rewrite Hs.
  apply N.eqb_neq in H45, H43. rewrite H45, H43.
  assert (H48 : (c =? 48)%N = false).
  { apply N.eqb_neq. intros ->. discriminate Hd. }
  destruct t as [|c1 t]; rewrite ?H48; cbn [andb takeDigits];
    now rewrite Hd.
Qed.

(** With no [stream:] before the marker, the first [stream:] is the
    marker's own. *)
Lemma breakOn_marker pre rest :
  breakOn (str "stream:") pre = None ->
  breakOn (str "stream:") (pre ++ marker ++ rest)
  = Some (pre ++ str "Video ", rest).
Proof.
  intros H.
  change (marker ++ rest)
    with (N_of_ascii "V" :: (str "ideo " ++ str "stream:" ++ rest)).
  rewrite (breakOn_none_app _ _ _ _ H)
    by (vm_compute; intuition discriminate).
  change (N_of_ascii "V" :: str "ideo " ++ str "stream:" ++ rest)
    with (str "Video " ++ str "stream:" ++ rest).
  change (str "stream:") with (115%N :: str "tream:").
  rewrite breakOn_skip
    by (repeat constructor; discriminate).
  change (115%N :: str "tream:") with (str "stream:").
  now rewrite breakOn_here, app_nil_r.
Qed.

Lemma indexOf_occurs l sub r :
  (indexOf (l ++ sub ++ r) sub >? -1)%Z = true.
Proof.
  rewrite indexOf_breakOn.
  destruct (breakOn_app sub l r) as (b & a & t & -> & _).
  apply Z.gtb_lt. lia.
Qed.

(** The line of a well-formed announcement is what [ratio] holds. *)
Lemma announcement_line ws1 dw ws2 ws3 dh ws4 tail :
  Forall (fun c => inline_space c = true) (ws1 ++ ws2 ++ ws3 ++ ws4) ->
  Forall (fun d => (d < 10)%N) (dw ++ dh) ->
  tail = [] \/ (exists t, tail = LF :: t) ->
  before_first [LF]
    (before_first (str "stream:")
       (announcement ws1 dw ws2 ws3 dh ws4 ++ tail))
  = announcement ws1 dw ws2 ws3 dh ws4.
Proof.
  intros Hws Hds Htail.
  apply Forall_app in Hws as (H1 & Hws).
  apply Forall_app in Hws as (H2 & Hws).
  apply Forall_app in Hws as (H3 & H4).
  apply Forall_app in Hds as (Hw & Hh).
  assert (Hav : forall c, (c = 115 \/ c = 120 \/ c = LF)%N -> c <> 120%N ->
                avoids c (announcement ws1 dw ws2 ws3 dh ws4)).
  { intros c Hc Hx. unfold announcement.
    repeat apply avoids_app;
      try (now apply avoids_space); try (now apply avoids_decimal).
    repeat constructor. intros Hc'. apply Hx. now rewrite <- Hc'. }
  change (str "stream:") with (115%N :: str "tream:").
  rewrite before_first_skip by (apply Hav; [now left|discriminate]).
  destruct Htail as [->|(t & ->)].
  - rewrite before_first_nil, app_nil_r.
    apply before_first_none. apply Hav; [now right; right|discriminate].
  - change (LF :: t) with ([LF] ++ t).
    rewrite (before_first_skip 115%N (str "tream:") [LF] t)
      by (repeat constructor; discriminate).
    cbn [app]. apply before_first_char.
    apply Hav; [now right; right|discriminate].
Qed.

(** The two parts around the [x] of a well-formed announcement. *)
Lemma announcement_parts ws1 dw ws2 ws3 dh ws4 :
  Forall (fun c => inline_space c = true) (ws1 ++ ws2 ++ ws3 ++ ws4) ->
  Forall (fun d => (d < 10)%N) (dw ++ dh) ->
  breakOn (str "x") (announcement ws1 dw ws2 ws3 dh ws4)
  = Some (ws1 ++ decimal dw ++ ws2, ws3 ++ decimal dh ++ ws4) /\
  before_first (str "x") (ws3 ++ decimal dh ++ ws4)
  = ws3 ++ decimal dh ++ ws4.
Proof.
  intros Hws Hds.
  apply Forall_app in Hws as (H1 & Hws).
  apply Forall_app in Hws as (H2 & Hws).
  apply Forall_app in Hws as (H3 & H4).
  apply Forall_app in Hds as (Hw & Hh).
  assert (Hx : (120 = 115 \/ 120 = 120 \/ 120 = LF)%N) by (right; now left).
  split.
  - unfold announcement.
    replace (ws1 ++ decimal dw ++ ws2 ++ str "x" ++ ws3 ++ decimal dh ++ ws4)
      with ((ws1 ++ decimal dw ++ ws2)
            ++ 120%N :: (ws3 ++ decimal dh ++ ws4))
      by (now rewrite <- !app_assoc).
    apply breakOn_char, avoids_In.
    repeat apply avoids_app;
      (now apply avoids_space) || (now apply avoids_decimal).
  - apply before_first_none.
    repeat apply avoids_app;
      (now apply avoids_space) || (now apply avoids_decimal).
Qed.

Lemma inline_space_whitespace ws :
  Forall (fun c => inline_space c = true) ws ->
  Forall (fun c => is_whitespace c = true) ws.
Proof.
  intros H. eapply Forall_impl; [|exact H]. cbn beta.
  intros c Hc. apply (space_unit c Hc).
Qed.

End NumberFacts.

(** ** The claims on the interceptor *)

(** C1, as the code has it.  On a chunk with the marker whose parsed text
    (what follows the first [stream:], up to the next [stream:] or line
    feed) has an [x], the callback returns normally and overwrites
    VideoResolution with [parseInt] of the part before the first [x] and
    of the part between the first and the second [x], whatever these
    parts are; the chunk is appended to the buffer. *)
Theorem announcement_overwrites text p0 tl st :
  (indexOf text marker >? -1)%Z = true ->
  segment text = Some (p0 ++ str "x" ++ tl) ->
  ~ In (N_of_ascii "x") p0 ->
  intercept_callback text st =
  (Normal tt,
   let r := {| w := parseInt (trim p0);
               h := parseInt (trim (before_first (str "x") tl)) |} in
   {| videoResolution := Some r;
      stdoutBuffer := lastn 3000 (stdoutBuffer st ++ text);
      setVideoResolution_calls := setVideoResolution_calls st ++ [r] |}).
Proof.
  intros Hm Hseg Hx.
  destruct (marker_has_stream _ Hm) as (pre & rest & E).
  rewrite intercept_callback_scan, (scan_marker _ _ _ Hm E).
  unfold segment in Hseg. rewrite E in Hseg. injection Hseg as ->.
  change (str "x" ++ tl) with (N_of_ascii "x" :: tl).
  change (str "x") with [N_of_ascii "x"].
  now rewrite (breakOn_char _ _ _ Hx).
Qed.

Lemma announcement_overwrites_witness :
  intercept_callback announce_notanumber (startup None) =
  (Normal tt,
   {| videoResolution := Some {| w := NaN; h := Finite false 480 |};
      stdoutBuffer := announce_notanumber;
      setVideoResolution_calls :=
        [ {| w := Finite false 1280; h := Finite false 720 |};
          {| w := NaN; h := Finite false 480 |} ] |}).
Proof.
  refine (eq_trans
    (announcement_overwrites announce_notanumber (str " notanumber ")
       (str " 480") (startup None) _ _ _) _).
  - reflexivity.
  - reflexivity.
  - vm_compute. intuition discriminate.
  - reflexivity.
Defined.

(** C1 as stated fails: a malformed width is written to VideoResolution
    as NaN in place of the preset value. *)
Lemma notanumber_is_not_ignored :
  (indexOf announce_notanumber marker >? -1)%Z = true /\
  ~ (fst (intercept_callback announce_notanumber (startup None)) = Normal tt /\
     videoResolution (snd (intercept_callback announce_notanumber (startup None)))
     = videoResolution (startup None)).
Proof.
  split; [reflexivity|]. intros [_ H]. vm_compute in H. discriminate.
Qed.

(** C2 at the failing chunk: an announcement with no [x] makes the
    callback throw before line 64, so the chunk never reaches the buffer
    although it is part of what was fed. *)
Theorem raising_chunk_is_not_logged :
  intercept_callback announce_no_x (startup None)
  = (Throw TypeError, startup None) /\
  stdoutBuffer (feed [announce_no_x] (startup None)) = [] /\
  console_tail [announce_no_x] = announce_no_x /\
  stdoutBuffer (feed [announce_no_x] (startup None))
  <> console_tail [announce_no_x].
Proof.
  repeat split; try reflexivity. vm_compute. discriminate.
Qed.

(** The part of C3 that holds.  When no [stream:] comes before the marker
    and the marker's line reads two runs of decimal digits around an [x],
    with white space allowed around each run, and both numbers are below
    [2^53], the callback sets VideoResolution to exactly these two
    numbers. *)
Theorem announcement_sets_resolution pre ws1 dw ws2 ws3 dh ws4 tail st :
  breakOn (str "stream:") pre = None ->
  Forall (fun c => inline_space c = true) (ws1 ++ ws2 ++ ws3 ++ ws4) ->
  dw <> [] -> dh <> [] ->
  Forall (fun d => (d < 10)%N) (dw ++ dh) ->
  (mathInt 10 dw < 2 ^ 53)%N -> (mathInt 10 dh < 2 ^ 53)%N ->
  tail = [] \/ (exists t, tail = LF :: t) ->
  intercept_callback
    (pre ++ marker ++ announcement ws1 dw ws2 ws3 dh ws4 ++ tail) st =
  (Normal tt,
   let r := {| w := Finite false (mathInt 10 dw);
               h := Finite false (mathInt 10 dh) |} in
   {| videoResolution := Some r;
      stdoutBuffer :=
        lastn 3000
          (stdoutBuffer st
           ++ pre ++ marker ++ announcement ws1 dw ws2 ws3 dh ws4 ++ tail);
      setVideoResolution_calls := setVideoResolution_calls st ++ [r] |}).
Proof.
  intros Hpre Hws Hdw Hdh Hds Bw Bh Htail.
  set (line := announcement ws1 dw ws2 ws3 dh ws4).
  pose proof (indexOf_occurs pre marker (line ++ tail)) as Hm.
  pose proof (breakOn_marker pre (line ++ tail) Hpre) as E.
  rewrite intercept_callback_scan, (scan_marker _ _ _ Hm E).
  unfold line. rewrite (announcement_line _ _ _ _ _ _ _ Hws Hds Htail).
  destruct (announcement_parts _ _ _ _ _ _ Hws Hds) as (-> & ->).
  apply Forall_app in Hws as (H1 & Hws).
  apply Forall_app in Hws as (H2 & Hws).
  apply Forall_app in Hws as (H3 & H4).
  apply Forall_app in Hds as (Hw & Hh).
  rewrite !trim_decimal by (easy || now apply inline_space_whitespace).
  rewrite !parseInt_decimal by easy.
  now rewrite !to_number_exact by easy.
Qed.

Lemma announcement_sets_resolution_witness :
  intercept_callback (str "[darknet] " ++ announce_640_480) (startup production)
  = (Normal tt,
     {| videoResolution :=
          Some {| w := Finite false 640; h := Finite false 480 |};
        stdoutBuffer := str "[darknet] " ++ announce_640_480;
        setVideoResolution_calls :=
          [ {| w := Finite false 640; h := Finite false 480 |} ] |}).
Proof.
  refine (eq_trans
    (announcement_sets_resolution (str "[darknet] ")
       (str " ") [6; 4; 0]%N (str " ") (str " ") [4; 8; 0]%N [] [LF]
       (startup production) _ _ _ _ _ _ _ _) _).
  - reflexivity.
  - repeat constructor.
  - discriminate.
  - discriminate.
  - repeat constructor.
  - reflexivity.
  - reflexivity.
  - right. now exists [].
  - reflexivity.
Defined.

(** C3 at the failing chunk.  The chunk holds a well-formed announcement,
    [Video stream: 640 x 480], after an earlier [stream:]: the callback
    tests for the marker but splits on [stream:], so it stores the
    numbers that follow the earlier [stream:], 1 and 2, and not those of
    the announcement. *)
Lemma earlier_stream_wins :
  (indexOf two_streams (marker ++ str " 640 x 480" ++ [LF]) >? -1)%Z = true /\
  videoResolution (deliver (startup production) two_streams)
  = Some {| w := Finite false 1; h := Finite false 2 |} /\
  videoResolution (deliver (startup production) two_streams)
  <> Some {| w := Finite false 640; h := Finite false 480 |}.
Proof.
  split; [reflexivity|]. split; [reflexivity|].
  vm_compute. discriminate.
Qed.

(** The same slip on another chunk: with no [x] after the earlier
    [stream:] the callback throws, and the announcement that follows is
    lost. *)
Lemma earlier_stream_throws :
  (indexOf upstream_then_announcement
     (marker ++ str " 640 x 480" ++ [LF]) >? -1)%Z = true /\
  intercept_callback upstream_then_announcement (startup production)
  = (Throw TypeError, startup production).
Proof. split; reflexivity. Qed.

(** The bound of [2^53] matters: a larger width is rounded to the
    nearest Number. *)
Lemma large_width_is_rounded :
  videoResolution
    (deliver (startup production)
       (str "Video stream: 9007199254740993 x 1" ++ [LF]))
  = Some {| w := Finite false 9007199254740992; h := Finite false 1 |}.
Proof. reflexivity. Qed.

(** C9.  Outside production the resolution is preset to 1280 by 720 before
    any output has come in, and whatever comes in afterwards the
    resolution served is never [null]. *)
Theorem simulation_preset NODE_ENV chunks :
  SIMULATION_MODE NODE_ENV = true ->
  videoResolution (startup NODE_ENV)
  = Some {| w := Finite false 1280; h := Finite false 720 |} /\
  stdoutBuffer (startup NODE_ENV) = [] /\
  get_webcam_resolution (feed chunks (startup NODE_ENV)) <> None.
Proof.
  intros H. unfold startup. rewrite H. cbn [videoResolution stdoutBuffer].
  repeat split. apply feed_keeps_resolution. easy.
Qed.

Lemma simulation_preset_witness :
  videoResolution (startup (Some (str "development")))
  = Some {| w := Finite false 1280; h := Finite false 720 |} /\
  stdoutBuffer (startup (Some (str "development"))) = [] /\
  get_webcam_resolution
    (feed [announce_notanumber; announce_no_x]
          (startup (Some (str "development")))) <> None.
Proof.
  apply (simulation_preset (Some (str "development"))
           [announce_notanumber; announce_no_x]).
  reflexivity.
Defined.

(** C10, as the code has it.  On a chunk with the marker, [ratio] is the
    text after the first [stream:] of the whole chunk, up to the next
    [stream:] or the next line feed, whichever comes first; so when that
    first [stream:] comes before the marker, [ratio] lies wholly before
    the marker's own [stream:] and holds nothing of the announcement. *)
Theorem ratio_follows_first_stream text st :
  (indexOf text marker >? -1)%Z = true ->
  exists pre rest seg,
    breakOn (str "stream:") text = Some (pre, rest) /\
    segment text = Some seg /\
    ratio_of text st = (Normal seg, st) /\
    (forall mid rest', rest = mid ++ marker ++ rest' ->
       exists t, mid ++ str "Video " = seg ++ t).
Proof.
  intros Hm. destruct (marker_has_stream _ Hm) as (pre & rest & E).
  exists pre, rest, (before_first [LF] (before_first (str "stream:") rest)).
  split; [exact E|]. split; [unfold segment; now rewrite E|].
  split; [now apply ratio_of_segment with (pre := pre)|].
  intros mid rest' ->.
  replace (mid ++ marker ++ rest')
    with ((mid ++ str "Video ") ++ str "stream:" ++ rest')
    by (now rewrite marker_eq, <- !app_assoc).
  destruct (breakOn_app (str "stream:") (mid ++ str "Video ") rest')
    as (b & a & t & Eb & Et0).
  unfold before_first at 2. rewrite Eb, Et0.
  destruct (before_first_prefix [LF] b) as (t' & Et).
  exists (t' ++ t). now rewrite app_assoc, <- Et.
Qed.

Lemma ratio_follows_first_stream_witness :
  exists pre rest seg,
    breakOn (str "stream:") two_streams = Some (pre, rest) /\
    segment two_streams = Some seg /\
    ratio_of two_streams (startup None) = (Normal seg, startup None) /\
    (forall mid rest', rest = mid ++ marker ++ rest' ->
       exists t, mid ++ str "Video " = seg ++ t).
Proof.
  apply (ratio_follows_first_stream two_streams (startup None)).
  reflexivity.
Defined.

(** C10 as stated fails: with a second [stream:] on the line, [ratio]
    stops there and not at the line feed. *)
Lemma ratio_stops_at_second_stream :
  (indexOf stream_twice_on_line marker >? -1)%Z = true /\
  ~ (exists seg, segment_to_newline stream_twice_on_line = Some seg /\
                 ratio_of stream_twice_on_line (startup None)
                 = (Normal seg, startup None)).
Proof.
  split; [reflexivity|]. intros (seg & H1 & H2).
  vm_compute in H1, H2. congruence.
Qed.

(** ** Shutdown and faults *)

Section ProcessFacts.

Import Process.

Lemma clean_calls_app l es ex al :
  clean_calls {| effects := l ++ es; exiting := ex; alive := al |}
  = clean_calls {| effects := l; exiting := false; alive := true |}
    + length (filter is_clean es).
Proof.
  unfold clean_calls. cbn [effects]. now rewrite filter_app, length_app.
Qed.

(** C5, as the code has it.  Every shutdown event runs the cleanup and
    ends the process: a normal exit calls [Opendatacam.clean()] once, a
    signal calls it twice, first in the signal's handler and then in the
    ['exit'] handler that [process.exit()] sets off. *)
Theorem shutdown_cleans e p :
  alive p = true -> exiting p = false ->
  clean_calls (on_shutdown e p)
  = clean_calls p + match e with BySignal _ => 2 | NormalExit => 1 end /\
  alive (on_shutdown e p) = false.
Proof.
  destruct p as [l ex al]. cbn [alive exiting]. intros -> ->.
  destruct e as [[]|]; (split; [|reflexivity]);
    cbv [on_shutdown on_signal on_normal_exit listeners registrations
         filter map fst snd event_eqb signal_eqb emit fold_right call
         exitHandler andThen emit_effect skip process_exit
         process_exit_again terminate set_exiting truthy is_zero
         opt_truthy exit cleanup alive exiting effects signal_name
         orb negb Z.eqb];
    cbn [str map String.list_ascii_of_string];
    rewrite <- ?app_assoc; rewrite clean_calls_app; reflexivity.
Qed.

Lemma shutdown_cleans_witness :
  clean_calls (on_shutdown (BySignal SIGUSR2) boot) = 0 + 2 /\
  alive (on_shutdown (BySignal SIGUSR2) boot) = false.
Proof.
  apply (shutdown_cleans (BySignal SIGUSR2) boot); reflexivity.
Defined.

(** C5 as stated fails: on SIGINT the cleanup runs twice, not once. *)
Lemma sigint_cleans_twice :
  clean_calls (on_shutdown (BySignal SIGINT) boot) = 2 /\
  clean_calls (on_shutdown (BySignal SIGINT) boot) <> 1.
Proof. split; [reflexivity|discriminate]. Qed.

(** C6.  An uncaught error does not end the process: the listener logs
    the message with the error and the process goes on, neither exited
    nor exiting. *)
Theorem uncaught_is_logged err p :
  alive p = true ->
  alive (on_uncaught err p) = true /\
  exiting (on_uncaught err p) = exiting p /\
  effects (on_uncaught err p)
  = effects p ++ [console_log [VString pheew; VError err]].
Proof.
  destruct p as [l ex al]. cbn [alive]. intros ->.
  repeat split.
Qed.

Lemma uncaught_is_logged_witness :
  alive (on_uncaught (str "TypeError") boot) = true /\
  exiting (on_uncaught (str "TypeError") boot) = exiting boot /\
  effects (on_uncaught (str "TypeError") boot)
  = effects boot
    ++ [console_log [VString pheew; VError (str "TypeError")]].
Proof.
  apply (uncaught_is_logged (str "TypeError") boot). reflexivity.
Defined.

End ProcessFacts.

(** ** The engine supervisor *)

Section SupervisorFacts.

Import YOLO.

Lemma start_when_started st :
  engineState st <> NotStarted -> start st = st.
Proof. unfold start. now destruct (engineState st). Qed.

Lemma start_not_NotStarted st : engineState (start st) <> NotStarted.
Proof. unfold start. now destruct (engineState st) eqn:E; cbn; rewrite ?E. Qed.

(** C7.  A second [start()] right after the first changes nothing: the
    two calls together spawn one engine when none was started, and none
    otherwise, and leave the state at Starting or Started. *)
Theorem start_twice_spawns_once st :
  start (start st) = start st /\
  length (spawned (start (start st)))
  = length (spawned st)
    + match engineState st with NotStarted => 1 | _ => 0 end /\
  (engineState (start (start st)) = Starting
   \/ engineState (start (start st)) = Started).
Proof.
  unfold start. destruct st as [[] sim sp]; cbn; repeat split;
    rewrite ?length_app; cbn; auto; lia.
Qed.

Lemma run_started steps st :
  engineState st <> NotStarted ->
  spawned (run_steps steps st) = spawned st /\
  engineState (run_steps steps st) <> NotStarted.
Proof.
  revert st. induction steps as [|s steps IH]; intros st H; [easy|].
  cbn [run_steps fold_left].
  assert (Hs : spawned (run_step st s) = spawned st
               /\ engineState (run_step st s) <> NotStarted).
  { destruct s; cbn [run_step].
    - now rewrite start_when_started.
    - unfold confirm. now destruct (engineState st) eqn:E; cbn; rewrite ?E. }
  destruct Hs as (Hsp & Hne).
  destruct (IH _ Hne) as (IH1 & IH2). fold (run_steps steps (run_step st s)).
  now rewrite IH1, Hsp.
Qed.

(** However many requests for [/] come in, and however they interleave
    with the confirmation, one engine is spawned: at the first request. *)
Theorem one_engine steps sim :
  length (spawned (run_steps steps (init sim)))
  = if existsb is_GetRoot steps then 1 else 0.
Proof.
  assert (G : forall st, engineState st = NotStarted ->
            length (spawned (run_steps steps st))
            = length (spawned st)
              + if existsb is_GetRoot steps then 1 else 0).
  { induction steps as [|s steps IH]; intros st H; [cbn; lia|].
    cbn [run_steps fold_left existsb]. fold (run_steps steps (run_step st s)).
    destruct s; cbn [run_step is_GetRoot orb].
    - destruct (run_started steps (start st) (start_not_NotStarted st))
        as (-> & _).
      unfold start. rewrite H. cbn. now rewrite length_app.
    - assert (Hc : confirm st = st) by (unfold confirm; now rewrite H).
      rewrite Hc. now apply IH. }
  now rewrite (G (init sim) eq_refl).
Qed.

End SupervisorFacts.

(** ** The recording controller *)

Section RecordingFacts.

Import Recording.

(** C8.  Redundant calls change nothing.  A second [start()] leaves the
    session of the first as it is, its [dateStart] included, and a
    [stop()] outside a recording leaves the controller as it is: nothing is
    handed to storage and the controller stays in NotRecording. *)
Theorem redundant_calls_are_noops st t1 a1 t2 a2 t :
  isRecording st = false ->
  startRecording t2 a2 (startRecording t1 a1 st) = startRecording t1 a1 st /\
  option_map dateStart
    (recording (startRecording t2 a2 (startRecording t1 a1 st))) = Some t1 /\
  stopRecording t st = st /\
  persisted (stopRecording t st) = persisted st /\
  isRecording (stopRecording t st) = false.
Proof.
  destruct st as [[s|] ps]; cbn; [discriminate|]. intros _. repeat split.
Qed.

Lemma redundant_calls_are_noops_witness :
  startRecording 20%Z (str "{}") (startRecording 10%Z (str "{}") not_recording)
  = startRecording 10%Z (str "{}") not_recording /\
  option_map dateStart
    (recording (startRecording 20%Z (str "{}")
                  (startRecording 10%Z (str "{}") not_recording))) = Some 10%Z /\
  stopRecording 30%Z not_recording = not_recording /\
  persisted (stopRecording 30%Z not_recording) = persisted not_recording /\
  isRecording (stopRecording 30%Z not_recording) = false.
Proof.
  apply (redundant_calls_are_noops not_recording 10%Z (str "{}") 20%Z (str "{}") 30%Z).
  reflexivity.
Defined.

(** The second [start()] is a no-op in every state, recording or not. *)
Lemma startRecording_idempotent st t1 a1 t2 a2 :
  startRecording t2 a2 (startRecording t1 a1 st) = startRecording t1 a1 st.
Proof. now destruct st as [[s|] ps]. Qed.

End RecordingFacts.

(** ** The MJPEG stream *)

Section StreamFacts.

Import Streams.

Lemma live_after_app r tr es :
  live_after r (tr ++ es) = fold_left (track r) es (live_after r tr).
Proof. unfold live_after. apply fold_left_app. Qed.

Lemma viewers_S n :
  viewers (S n)
  = {| proxies := proxies (viewers n)
                  ++ [ {| audienceResponses := [next (viewers n)];
                          mjpegRequest := Some (next (viewers n)) |} ];
       next := S (next (viewers n));
       trace := trace (viewers n)
                ++ [Open Upstream (next (viewers n));
                    Open (Client MJPEG) (next (viewers n))] |}.
Proof. reflexivity. Qed.

(** The handler closes nothing: after any number of requests every
    response and every upstream connection opened so far is still open. *)
Lemma viewers_all_open n :
  next (viewers n) = n /\
  existsb is_Close (trace (viewers n)) = false /\
  length (live_after (Client MJPEG) (trace (viewers n))) = n /\
  length (live_after Upstream (trace (viewers n))) = n.
Proof.
  induction n as [|n (Hn & Hc & Hm & Hu)]; [now cbn|].
  rewrite viewers_S. cbn [next trace].
  rewrite existsb_app, !live_after_app, Hc. cbn.
  now rewrite Hn, Hm, Hu.
Qed.

(** C4 at the failing requests.  A second [GET /webcam/stream] builds a
    proxy of its own and closes nothing: the response and the upstream
    connection of the first request are still open when the first frame
    is written to the second, so the trace is not exclusive. *)
Theorem second_viewer_leaves_first_open :
  trace (frame 1 (viewers 2))
  = [Open Upstream 0; Open (Client MJPEG) 0;
     Open Upstream 1; Open (Client MJPEG) 1; Write MJPEG 1] /\
  live_after (Client MJPEG) (trace (viewers 2)) = [1; 0] /\
  live_after Upstream (trace (viewers 2)) = [1; 0] /\
  ~ exclusive (trace (frame 1 (viewers 2))).
Proof.
  repeat split; try reflexivity.
  intros H.
  destruct (H [Open Upstream 0; Open (Client MJPEG) 0;
               Open Upstream 1; Open (Client MJPEG) 1]
              (Write MJPEG 1) [] eq_refl) as (_ & Hw).
  specialize (Hw MJPEG 1 eq_refl (Client MJPEG) (or_introl eq_refl)).
  discriminate Hw.
Qed.

End StreamFacts.

(* ================================================================== *)
(** * Part III: further properties of the code *)
(* ================================================================== *)

(** ** The interceptor over a run of chunks *)

Section RunFacts.

Lemma breakOn_char_none c (s : jsstring) :
  breakOn [c] s = None <-> ~ In c s.
Proof.
  split.
  - intros H Hin. apply in_split in Hin as (l & r & ->).
    destruct (breakOn_app [c] l r) as (b & a & t & E & _).
    cbn [app] in E. congruence.
  - intros H. rewrite <- (app_nil_r s).
    rewrite breakOn_skip.
    + reflexivity.
    + apply Forall_forall. intros d Hd ->. now apply H.
Qed.

Lemma scan_no_marker text :
  (indexOf text marker >? -1)%Z = false -> scan text = Normal None.
Proof. intros H. unfold scan. now rewrite H. Qed.

(** When the callback throws.  It throws, a TypeError, exactly on a chunk
    that has the marker while the text it reads the numbers from (after
    the first [stream:], up to the next [stream:] or line feed) has no
    [x]; and then it leaves the resolution, the buffer and the
    collaborator as they were. *)
Theorem callback_throws_iff text st :
  intercept_callback text st = (Throw TypeError, st) <->
  (indexOf text marker >? -1)%Z = true /\
  exists seg, segment text = Some seg /\ ~ In (N_of_ascii "x") seg.
Proof.
  rewrite intercept_callback_scan.
  destruct (indexOf text marker >? -1)%Z eqn:Hm.
  - destruct (marker_has_stream _ Hm) as (pre & rest & E).
    rewrite (scan_marker _ _ _ Hm E). unfold segment. rewrite E.
    set (seg := before_first [LF] (before_first (str "stream:") rest)).
    change (str "x") with [N_of_ascii "x"].
    destruct (breakOn [N_of_ascii "x"] seg) as [[p0 a]|] eqn:Ex.
    + split; [discriminate|]. intros (_ & seg' & [= <-] & Hx).
      apply breakOn_char_none in Hx.
      discriminate (eq_trans (eq_sym Ex) Hx).
    + split; [|reflexivity]. intros _. split; [reflexivity|].
      exists seg. split; [reflexivity|]. now apply breakOn_char_none.
  - rewrite (scan_no_marker _ Hm). split; [discriminate|].
    now intros (H & _).
Qed.

Lemma raises_iff text st :
  raises text = true <-> intercept_callback text st = (Throw TypeError, st).
Proof.
  rewrite intercept_callback_scan. unfold raises.
  destruct (scan text) as [r|[]]; split; congruence.
Qed.

Lemma feed_cons c chunks st :
  feed (c :: chunks) st = feed chunks (deliver st c).
Proof. reflexivity. Qed.

Lemma startup_buffer NODE_ENV : stdoutBuffer (startup NODE_ENV) = [].
Proof. unfold startup. now destruct (SIMULATION_MODE NODE_ENV). Qed.

(** The console never grows past its bound.  After any chunks, throwing
    ones included, [GET /console] answers at most 3000 code units. *)
Theorem console_bounded NODE_ENV chunks :
  length (get_console (feed chunks (startup NODE_ENV))) <= 3000.
Proof.
  unfold get_console.
  assert (G : forall cs st, length (stdoutBuffer st) <= 3000 ->
              length (stdoutBuffer (feed cs st)) <= 3000).
  { induction cs as [|c cs IH]; intros st H; [easy|].
    rewrite feed_cons. apply IH. now apply deliver_bounded. }
  apply G. rewrite startup_buffer. cbn. lia.
Qed.

Lemma feed_buffer chunks : forall st,
  length (stdoutBuffer st) <= 3000 ->
  stdoutBuffer (feed chunks st)
  = lastn 3000 (stdoutBuffer st ++ concat (delivered chunks)).
Proof.
  induction chunks as [|c chunks IH]; intros st Hlen.
  - cbn. rewrite app_nil_r. now rewrite lastn_short.
  - rewrite feed_cons, IH by now apply deliver_bounded.
    rewrite deliver_scan. unfold delivered. cbn [filter]. unfold raises.
    destruct (scan c); cbn [negb stdoutBuffer concat].
    + now rewrite lastn_app_lastn, <- app_assoc.
    + reflexivity.
Qed.

(** What the console holds.  After any chunks, [GET /console] answers the
    last 3000 code units of the concatenation of the chunks on which the
    callback did not throw; a chunk on which it threw is missing from it
    entirely. *)
Theorem console_is_tail_of_delivered NODE_ENV chunks :
  get_console (feed chunks (startup NODE_ENV))
  = lastn 3000 (concat (delivered chunks)).
Proof.
  unfold get_console. rewrite feed_buffer.
  - now rewrite startup_buffer.
  - rewrite startup_buffer. cbn. lia.
Qed.

Lemma feed_calls chunks : forall st,
  setVideoResolution_calls (feed chunks st)
  = setVideoResolution_calls st ++ announced chunks.
Proof.
  induction chunks as [|c chunks IH]; intros st.
  - cbn. now rewrite app_nil_r.
  - rewrite feed_cons, IH, deliver_scan. unfold announced. cbn [flat_map].
    destruct (scan c) as [[r|]|]; cbn [setVideoResolution_calls];
      now rewrite <- ?app_assoc, ?app_nil_r.
Qed.

(** The collaborator is told once per announcement.  The calls to
    [Opendatacam.setVideoResolution] made while chunks are fed are, in
    order, the objects read from the chunks on which the scraping
    completed; chunks without the marker and chunks that throw cause no
    call. *)
Theorem notifications_are_announcements chunks st :
  setVideoResolution_calls (feed chunks st)
  = setVideoResolution_calls st ++ announced chunks.
Proof. apply feed_calls. Qed.

Lemma latest_app {A} (a b : list A) :
  latest (a ++ b) = match latest b with
                    | Some x => Some x
                    | None => latest a
                    end.
Proof.
  unfold latest. rewrite rev_app_distr. now destruct (rev b).
Qed.

Lemma latest_None {A} (l : list A) : latest l = None <-> l = [].
Proof.
  unfold latest. split.
  - destruct (rev l) eqn:E; [|discriminate]. intros _.
    apply (f_equal (@rev A)) in E. now rewrite rev_involutive in E.
  - now intros ->.
Qed.

Lemma feed_resolution chunks : forall st,
  videoResolution (feed chunks st)
  = match latest (announced chunks) with
    | Some r => Some r
    | None => videoResolution st
    end.
Proof.
  induction chunks as [|c chunks IH]; intros st; [reflexivity|].
  rewrite feed_cons, IH, deliver_scan.
  change (announced (c :: chunks))
    with (match scan c with
          | Normal (Some r) => [r]
          | _ => []
          end ++ announced chunks).
  rewrite latest_app.
  destruct (latest (announced chunks)); [reflexivity|].
  now destruct (scan c) as [[r|]|].
Qed.

(** The latest announcement wins.  After any chunks the resolution is the
    object read from the last chunk on which the scraping completed, and
    the resolution from before when there was no such chunk; throwing
    chunks and chunks without the marker in between change nothing. *)
Theorem latest_announcement_wins chunks st :
  videoResolution (feed chunks st)
  = match latest (announced chunks) with
    | Some r => Some r
    | None => videoResolution st
    end.
Proof. apply feed_resolution. Qed.

(** The collaborator is in step.  From the start of the program on, the
    resolution served by [GET /webcam/resolution] is the object last
    handed to [Opendatacam.setVideoResolution], and is [null] exactly
    when no call was made yet. *)
Theorem collaborator_in_step NODE_ENV chunks :
  get_webcam_resolution (feed chunks (startup NODE_ENV))
  = latest (setVideoResolution_calls (feed chunks (startup NODE_ENV))).
Proof.
  unfold get_webcam_resolution.
  rewrite feed_resolution, feed_calls.
  rewrite latest_app. destruct (latest (announced chunks)); [reflexivity|].
  unfold startup. now destruct (SIMULATION_MODE NODE_ENV).
Qed.

(** In production the resolution is [null] until the first announcement.
    With [NODE_ENV] set to [production], [GET /webcam/resolution]
    answers [null] exactly as long as the scraping has completed on none
    of the chunks fed. *)
Theorem production_null_until_announced NODE_ENV chunks :
  SIMULATION_MODE NODE_ENV = false ->
  get_webcam_resolution (feed chunks (startup NODE_ENV)) = None
  <-> announced chunks = [].
Proof.
  intros H. unfold get_webcam_resolution.
  rewrite feed_resolution. unfold startup. rewrite H.
  cbn [videoResolution]. rewrite <- latest_None.
  now destruct (latest (announced chunks)).
Qed.

Lemma production_null_until_announced_witness :
  get_webcam_resolution
    (feed [str "loading weights"; announce_no_x] (startup production)) = None
  <-> announced [str "loading weights"; announce_no_x] = [].
Proof.
  apply (production_null_until_announced production
           [str "loading weights"; announce_no_x]).
  reflexivity.
Defined.

End RunFacts.

(** ** White space around the numbers *)

Section TrimFacts.

Lemma parseInt_unsigned s :
  parseInt s =
  match dropWhile is_whitespace s with
  | c :: t => if (c =? 45)%N then unsigned_part true t
              else if (c =? 43)%N then unsigned_part false t
              else unsigned_part false (c :: t)
  | [] => unsigned_part false []
  end.
Proof.
  unfold parseInt, unsigned_part.
  destruct (dropWhile is_whitespace s) as [|c t]; [reflexivity|].
  destruct (c =? 45)%N; [reflexivity|]. now destruct (c =? 43)%N.
Qed.

(** White space is no digit, no sign and no prefix letter. *)
Lemma space_is_no_digit c R :
  is_whitespace c = true -> digit_in_radix R c = None.
Proof.
  intros H. unfold digit_in_radix, digit_value.
  unfold is_whitespace in H.
  repeat rewrite ?orb_true_iff, ?andb_true_iff, ?N.leb_le, ?N.eqb_eq in H.
  destruct ((48 <=? c) && (c <=? 57))%N eqn:E1.
  { apply andb_true_iff in E1 as [A B]. apply N.leb_le in A, B. lia. }
  destruct ((97 <=? c) && (c <=? 122))%N eqn:E2.
  { apply andb_true_iff in E2 as [A B]. apply N.leb_le in A, B. lia. }
  destruct ((65 <=? c) && (c <=? 90))%N eqn:E3.
  { apply andb_true_iff in E3 as [A B]. apply N.leb_le in A, B. lia. }
  reflexivity.
Qed.

Lemma space_is_no_mark c :
  is_whitespace c = true ->
  ((c =? 45) = false /\ (c =? 43) = false /\ (c =? 48) = false /\
   (c =? 120) = false /\ (c =? 88) = false)%N.
Proof.
  intros H. repeat split; apply N.eqb_neq; intros ->; discriminate.
Qed.

Lemma takeDigits_space R (W : jsstring) :
  Forall (fun c => is_whitespace c = true) W -> takeDigits R W = [].
Proof.
  intros [|c W' Hc _]; [reflexivity|].
  cbn [takeDigits]. now rewrite (space_is_no_digit c R Hc).
Qed.

Lemma takeDigits_app_space R T (W : jsstring) :
  Forall (fun c => is_whitespace c = true) W ->
  takeDigits R (T ++ W) = takeDigits R T.
Proof.
  intros HW. induction T as [|c T IH].
  - cbn [app]. now rewrite takeDigits_space.
  - cbn [app takeDigits]. destruct (digit_in_radix R c); [|reflexivity].
    now rewrite IH.
Qed.

Lemma unsigned_part_space neg U (W : jsstring) :
  Forall (fun c => is_whitespace c = true) W ->
  unsigned_part neg (U ++ W) = unsigned_part neg U.
Proof.
  intros HW. unfold unsigned_part.
  destruct U as [|u0 [|u1 U]].
  - cbn [app]. destruct W as [|w0 [|w1 W]]; [reflexivity| |].
    + now rewrite (takeDigits_space 10 _ HW).
    + assert (H0 : is_whitespace w0 = true) by now inversion HW.
      destruct (space_is_no_mark w0 H0) as (_ & _ & -> & _).
      cbn [andb]. now rewrite (takeDigits_space 10 _ HW).
  - cbn [app]. destruct W as [|w0 W]; [reflexivity|].
    assert (H0 : is_whitespace w0 = true) by now inversion HW.
    destruct (space_is_no_mark w0 H0) as (_ & _ & _ & -> & ->).
    rewrite andb_false_r.
    change (u0 :: w0 :: W) with ([u0] ++ w0 :: W).
    now rewrite (takeDigits_app_space 10 [u0] _ HW).
  - cbn [app].
    destruct ((u0 =? 48) && ((u1 =? 120) || (u1 =? 88)))%N.
    + now rewrite (takeDigits_app_space 16 U _ HW).
    + change (u0 :: u1 :: U ++ W) with ((u0 :: u1 :: U) ++ W).
      now rewrite (takeDigits_app_space 10 _ _ HW).
Qed.

Lemma dropWhile_split p (l : jsstring) :
  exists a, l = a ++ dropWhile p l /\ Forall (fun x => p x = true) a.
Proof.
  induction l as [|c l (a & E & Ha)].
  - now exists [].
  - cbn [dropWhile]. destruct (p c) eqn:Hc.
    + exists (c :: a). split; [cbn; now f_equal|now constructor].
    + now exists [].
Qed.

Lemma dropWhile_head p (l : jsstring) c t :
  dropWhile p l = c :: t -> p c = false.
Proof.
  induction l as [|d l IH]; [discriminate|].
  cbn [dropWhile]. destruct (p d) eqn:Hd; [exact IH|].
  now intros [= <- _].
Qed.

(** The text after its leading white space is the trimmed text followed
    by white space. *)
Lemma trim_split s :
  exists W, dropWhile is_whitespace s = trim s ++ W /\
            Forall (fun c => is_whitespace c = true) W.
Proof.
  unfold trim. set (s1 := dropWhile is_whitespace s).
  destruct (dropWhile_split is_whitespace (rev s1)) as (a & E & Ha).
  exists (rev a). split; [|now apply Forall_rev].
  rewrite <- rev_app_distr, <- E. now rewrite rev_involutive.
Qed.

Lemma parseInt_trim s : parseInt (trim s) = parseInt s.
Proof.
  destruct (trim_split s) as (W & E & HW).
  rewrite (parseInt_unsigned s), E.
  destruct (trim s) as [|c T] eqn:ET.
  - cbn [app]. rewrite parseInt_unsigned. cbn [dropWhile].
    destruct W as [|w0 W']; [reflexivity|].
    cbn [app] in E. apply dropWhile_head in E.
    assert (H0 : is_whitespace w0 = true) by now inversion HW.
    congruence.
  - assert (Hc : is_whitespace c = false)
      by (cbn [app] in E; now apply dropWhile_head in E).
    rewrite parseInt_unsigned. cbn [dropWhile app]. rewrite Hc.
    destruct (c =? 45)%N; [now rewrite unsigned_part_space|].
    destruct (c =? 43)%N; [now rewrite unsigned_part_space|].
    change (c :: T ++ W) with ((c :: T) ++ W).
    now rewrite unsigned_part_space.
Qed.

Lemma dropWhile_all p (W : jsstring) :
  Forall (fun c => p c = true) W -> dropWhile p W = [].
Proof.
  induction 1 as [|c W Hc _ IH]; [reflexivity|].
  cbn [dropWhile]. now rewrite Hc.
Qed.

Lemma parseInt_blank (W : jsstring) :
  Forall (fun c => is_whitespace c = true) W -> parseInt W = NaN.
Proof.
  intros HW. rewrite parseInt_unsigned.
  now rewrite (dropWhile_all _ _ HW).
Qed.

(** An announcement cut after the [x].  When the text the numbers are
    read from ends with the first [x], or has only white space after it,
    the callback does not throw: it stores the width read before the [x]
    and [NaN] as the height. *)
Theorem height_missing text p0 ws st :
  (indexOf text marker >? -1)%Z = true ->
  segment text = Some (p0 ++ str "x" ++ ws) ->
  ~ In (N_of_ascii "x") p0 ->
  Forall (fun c => is_whitespace c = true) ws ->
  fst (intercept_callback text st) = Normal tt /\
  videoResolution (deliver st text)
  = Some {| w := parseInt (trim p0); h := NaN |}.
Proof.
  intros Hm Hseg Hx Hws.
  destruct (marker_has_stream _ Hm) as (pre & rest & E).
  unfold deliver.
  rewrite intercept_callback_scan, (scan_marker _ _ _ Hm E).
  unfold segment in Hseg. rewrite E in Hseg. injection Hseg as ->.
  change (str "x" ++ ws) with (N_of_ascii "x" :: ws).
  change (str "x") with [N_of_ascii "x"].
  rewrite (breakOn_char _ _ _ Hx). cbn [fst snd videoResolution].
  assert (Hb : before_first [N_of_ascii "x"] ws = ws).
  { apply before_first_none. unfold avoids.
    eapply Forall_impl; [|exact Hws]. cbn beta.
    intros c Hc ->. discriminate Hc. }
  rewrite Hb, (parseInt_trim ws), (parseInt_blank _ Hws). now split.
Qed.

Lemma height_missing_witness :
  fst (intercept_callback (str "Video stream: 640 x") (startup production))
  = Normal tt /\
  videoResolution (deliver (startup production) (str "Video stream: 640 x"))
  = Some {| w := parseInt (trim (str " 640 ")); h := NaN |}.
Proof.
  apply (height_missing (str "Video stream: 640 x") (str " 640 ") []
           (startup production)).
  - reflexivity.
  - reflexivity.
  - vm_compute. intuition discriminate.
  - constructor.
Defined.

(** The [trim()] calls of lines 59 and 60 make no difference to what the
    callback stores.  On a chunk with the marker whose parsed text has an
    [x], the resolution stored is [parseInt] of the untrimmed part before
    the first [x] and of the untrimmed part between the first and the
    second [x]. *)
Theorem stored_numbers_ignore_trim text p0 tl st :
  (indexOf text marker >? -1)%Z = true ->
  segment text = Some (p0 ++ str "x" ++ tl) ->
  ~ In (N_of_ascii "x") p0 ->
  videoResolution (deliver st text)
  = Some {| w := parseInt p0;
            h := parseInt (before_first (str "x") tl) |}.
Proof.
  intros Hm Hseg Hx.
  destruct (marker_has_stream _ Hm) as (pre & rest & E).
  rewrite deliver_scan, (scan_marker _ _ _ Hm E).
  unfold segment in Hseg. rewrite E in Hseg. injection Hseg as ->.
  change (str "x" ++ tl) with (N_of_ascii "x" :: tl).
  change (str "x") with [N_of_ascii "x"].
  rewrite (breakOn_char _ _ _ Hx). cbn [videoResolution].
  now rewrite (parseInt_trim p0),
    (parseInt_trim (before_first [N_of_ascii "x"] tl)).
Qed.

Lemma stored_numbers_ignore_trim_witness :
  videoResolution (deliver (startup production) announce_640_480)
  = Some {| w := parseInt (str " 640 ");
            h := parseInt (before_first (str "x") (str " 480")) |}.
Proof.
  apply (stored_numbers_ignore_trim announce_640_480 (str " 640 ")
           (str " 480") (startup production)).
  - reflexivity.
  - reflexivity.
  - vm_compute. intuition discriminate.
Defined.

End TrimFacts.

(** ** The listening port *)

Section PortFacts.

Import Port.

(** With radix 10 there is no prefix test: a sign, then decimal digits. *)
Lemma parseInt_radix_10 s :
  parseInt_radix s 10 =
  match dropWhile is_whitespace s with
  | c :: t =>
      let '(neg, s2) := if (c =? 45)%N then (true, t)
                        else if (c =? 43)%N then (false, t)
                        else (false, c :: t) in
      match takeDigits 10 s2 with
      | [] => NaN
      | ds => to_number neg (mathInt 10 ds)
      end
  | [] => NaN
  end.
Proof.
  unfold parseInt_radix. change (ToInt32 10) with 10%Z.
  cbn [Z.eqb Z.ltb Z.compare Pos.compare Pos.compare_cont negb orb andb
       Z.to_N].
  destruct (dropWhile is_whitespace s) as [|c t]; [reflexivity|].
  destruct (c =? 45)%N; [now destruct t as [|c0 [|c1 t']]|].
  destruct (c =? 43)%N; [now destruct t as [|c0 [|c1 t']]|].
  now destruct t as [|c1 t'].
Qed.

(** With no radix the two readings of [parseInt] agree. *)
Lemma parseInt_radix_0 s : parseInt_radix s 0 = parseInt s.
Proof.
  unfold parseInt_radix, parseInt. change (ToInt32 0) with 0%Z.
  cbn [Z.eqb negb orb andb].
  destruct (dropWhile is_whitespace s) as [|c t]; [reflexivity|].
  destruct (c =? 45)%N; [reflexivity|]. now destruct (c =? 43)%N.
Qed.

(** The port is always a port.  Whatever [PORT] holds, [port] is neither
    [NaN] nor zero, and an unset [PORT] gives 8080. *)
Theorem port_is_definite PORT :
  port PORT <> NaN /\
  (forall neg, port PORT <> Finite neg 0) /\
  port None = Finite false 8080.
Proof.
  split; [|split; [|reflexivity]]; unfold port;
    destruct (parseInt_radix (ToString PORT) 10) as [|neg|neg m];
    cbn [truthy]; try discriminate.
  - destruct (m =? 0)%N; discriminate.
  - intros neg'. destruct (N.eqb_spec m 0); cbn [negb]; [discriminate|].
    congruence.
Qed.

(** A [PORT] that is not a number falls back.  When [PORT] is empty,
    blank, or starts after white space with something that is neither a
    decimal digit nor a sign, the port is 8080. *)
Theorem port_falls_back s :
  match dropWhile is_whitespace s with
  | [] => True
  | c :: _ => digit_in_radix 10 c = None /\ c <> 45%N /\ c <> 43%N
  end ->
  port (Some s) = Finite false 8080.
Proof.
  intros H. unfold port. cbn [ToString]. rewrite parseInt_radix_10.
  destruct (dropWhile is_whitespace s) as [|c t]; [reflexivity|].
  destruct H as (Hd & H45 & H43).
  apply N.eqb_neq in H45, H43. rewrite H45, H43.
  cbn [takeDigits]. now rewrite Hd.
Qed.

Lemma port_falls_back_witness :
  port (Some (str " http")) = Finite false 8080.
Proof.
  apply (port_falls_back (str " http")).
  vm_compute. repeat split; discriminate.
Defined.

Lemma takeDigits_decimal_tail ds tail :
  Forall (fun d => (d < 10)%N) ds ->
  tail = [] \/ (exists c t, tail = c :: t /\ digit_in_radix 10 c = None) ->
  takeDigits 10 (decimal ds ++ tail) = ds.
Proof.
  intros Hds Htail. induction Hds as [|d ds Hd _ IH].
  - cbn [decimal map app].
    destruct Htail as [->|(c & t & -> & Hc)]; [reflexivity|].
    cbn [takeDigits]. now rewrite Hc.
  - cbn [decimal map app takeDigits].
    destruct (digit_unit d Hd) as (_ & -> & _).
    f_equal. exact IH.
Qed.

(** A decimal [PORT] is honoured, zero apart.  When [PORT] is, after
    optional white space, a run of decimal digits worth less than [2^53],
    followed by nothing or by something that is not a decimal digit, the
    port is the number written, and 8080 when that number is zero. *)
Theorem port_is_honoured ws ds tail :
  Forall (fun c => is_whitespace c = true) ws ->
  ds <> [] -> Forall (fun d => (d < 10)%N) ds ->
  tail = [] \/ (exists c t, tail = c :: t /\ digit_in_radix 10 c = None) ->
  (mathInt 10 ds < 2 ^ 53)%N ->
  port (Some (ws ++ decimal ds ++ tail))
  = if (mathInt 10 ds =? 0)%N then Finite false 8080
    else Finite false (mathInt 10 ds).
Proof.
  intros Hws Hne Hds Htail Hb. unfold port. cbn [ToString].
  rewrite parseInt_radix_10.
  pose proof (takeDigits_decimal_tail ds tail Hds Htail) as Ht.
  destruct ds as [|d ds']; [easy|].
  assert (Hd : (d < 10)%N) by now inversion Hds.
  destruct (digit_unit d Hd) as (Hw & _ & (H45 & H43 & _) & _).
  cbn [decimal map app] in *.
  rewrite (dropWhile_stop _ _ _ _ Hws Hw), H45, H43.
  cbv beta iota. rewrite Ht, (to_number_exact _ _ Hb).
  cbn [truthy]. now destruct (mathInt 10 (d :: ds') =? 0)%N.
Qed.

Lemma port_is_honoured_witness :
  port (Some (str " 3000")) = Finite false 3000.
Proof.
  refine (eq_trans
    (port_is_honoured (str " ") [3; 0; 0; 0]%N [] _ _ _ _ _) _).
  - repeat constructor.
  - discriminate.
  - repeat constructor.
  - now left.
  - reflexivity.
  - reflexivity.
Defined.

End PortFacts.

(** ** Shutdown and faults, in full *)

Section ShutdownFacts.

Import Process Faults.

(** What a shutdown does, in order.  A signal makes the handlers clean
    up, log the signal's name, clean up again, log the exit code 0 and
    exit with code 0; a normal exit does the last three only.  Nothing
    follows the exit, and the exit code is 0 whatever the signal. *)
Theorem shutdown_in_order e p :
  alive p = true -> exiting p = false ->
  effects (on_shutdown e p)
  = effects p
    ++ match e with
       | BySignal s => [Opendatacam_clean;
                        console_log [VString (signal_name s)]]
       | NormalExit => []
       end
    ++ [Opendatacam_clean; console_log [VNumber 0]; reallyExit 0] /\
  exiting (on_shutdown e p) = true.
Proof.
  destruct p as [l ex al]. cbn [alive exiting effects]. intros -> ->.
  destruct e as [[]|]; split; try reflexivity;
    cbv [on_shutdown on_signal on_normal_exit listeners registrations
         filter map fst snd event_eqb signal_eqb emit fold_right call
         exitHandler andThen emit_effect skip process_exit
         process_exit_again terminate set_exiting truthy is_zero
         opt_truthy exit cleanup alive exiting effects
         orb negb Z.eqb];
    cbn [signal_name str map String.list_ascii_of_string];
    now rewrite <- ?app_assoc.
Qed.

Lemma shutdown_in_order_witness :
  effects (on_shutdown (BySignal SIGUSR1) boot)
  = effects boot
    ++ [Opendatacam_clean; console_log [VString (signal_name SIGUSR1)]]
    ++ [Opendatacam_clean; console_log [VNumber 0]; reallyExit 0] /\
  exiting (on_shutdown (BySignal SIGUSR1) boot) = true.
Proof.
  apply (shutdown_in_order (BySignal SIGUSR1) boot); reflexivity.
Defined.

Lemma on_uncaught_step err p :
  alive p = true ->
  on_uncaught err p
  = {| effects := effects p ++ [console_log [VString pheew; VError err]];
       exiting := exiting p;
       alive := true |}.
Proof. destruct p as [l ex al]. cbn [alive]. now intros ->. Qed.

(** Faults never add up to a shutdown.  Any number of uncaught errors, one
    after the other, leaves the process running, logs one message per
    error in order, and never calls [Opendatacam.clean()]. *)
Theorem faults_never_stop errs p :
  alive p = true ->
  alive (faults errs p) = true /\
  exiting (faults errs p) = exiting p /\
  effects (faults errs p)
  = effects p
    ++ map (fun err => console_log [VString pheew; VError err]) errs /\
  clean_calls (faults errs p) = clean_calls p.
Proof.
  revert p. induction errs as [|err errs IH]; intros p Hp.
  - cbn. now rewrite app_nil_r.
  - unfold faults. cbn [fold_left]. fold (faults errs (on_uncaught err p)).
    rewrite (on_uncaught_step err p Hp).
    set (q := {| effects :=
                   effects p ++ [console_log [VString pheew; VError err]];
                 exiting := exiting p;
                 alive := true |}).
    destruct (IH q eq_refl) as (H1 & H2 & H3 & H4).
    rewrite H1, H2, H3, H4. unfold q. cbn [effects exiting map].
    rewrite <- app_assoc. repeat split.
    unfold clean_calls. cbn [effects].
    rewrite filter_app, length_app. cbn. lia.
Qed.

Lemma faults_never_stop_witness :
  alive (faults [str "a"; str "b"] boot) = true /\
  exiting (faults [str "a"; str "b"] boot) = exiting boot /\
  effects (faults [str "a"; str "b"] boot)
  = effects boot
    ++ map (fun err => console_log [VString pheew; VError err])
           [str "a"; str "b"] /\
  clean_calls (faults [str "a"; str "b"] boot) = clean_calls boot.
Proof.
  apply (faults_never_stop [str "a"; str "b"] boot). reflexivity.
Defined.

End ShutdownFacts.

(** ** The initializing view *)

Section ViewFacts.

Import InitializingView.

(** One button at a time.  [render] always shows exactly one button,
    "Show details" while the console is hidden and "Hide details" while
    it is shown, and mounts the console exactly when [showConsole] is
    set; a new component hides it. *)
Theorem one_button_at_a_time c :
  filter is_button (render c)
  = [if showConsole c then Button (str "Hide details") false
     else Button (str "Show details") true] /\
  existsb is_console (render c) = showConsole c /\
  existsb is_console (render constructor) = false.
Proof. now destruct c as [d t []]. Qed.

(** The button toggles.  A click on the button shown flips
    [showConsole], and a click on the button shown after that brings the
    component back to what it was. *)
Theorem button_toggles c b :
  In b (render c) -> is_button b = true ->
  showConsole (click b c) = negb (showConsole c) /\
  forall b', In b' (render (click b c)) -> is_button b' = true ->
             click b' (click b c) = c.
Proof.
  destruct c as [d t []]; cbn; intros Hin Hb;
    repeat (destruct Hin as [<-|Hin]; try discriminate Hb);
    try contradiction;
    (split; [reflexivity|]);
    intros b' Hin' Hb';
    repeat (destruct Hin' as [<-|Hin']; try discriminate Hb');
    try contradiction; reflexivity.
Qed.

Lemma button_toggles_witness :
  showConsole (click (Button (str "Show details") true) constructor)
  = negb (showConsole constructor) /\
  forall b',
    In b' (render (click (Button (str "Show details") true) constructor)) ->
    is_button b' = true ->
    click b' (click (Button (str "Show details") true) constructor)
    = constructor.
Proof.
  apply (button_toggles constructor (Button (str "Show details") true)).
  - right. right. now left.
  - reflexivity.
Defined.

End ViewFacts.
